(** * The LAN (v2) client of node-xlif: message framing and exchanges

    A shallow embedding of [clients/LANv2.js]: the sequence counter
    ([nextByteValue], [nextByte]), the message encoder ([createMessage]),
    the [Client] constructor, [Client.create], [Client#discover] and
    [Client#send], over a small model of the parts of the Node.js runtime
    the file calls ([Buffer], [Object.freeze], [Number.isInteger],
    [Promise], event listeners and timers). *)

From Stdlib Require Import ZArith QArith Qround Lia.
From stdpp Require Import base list strings.

Local Open Scope Z_scope.
#[local] Set Warnings "-register-all".

(** ** JavaScript values *)

(** The content of a [Buffer] (a [Uint8Array]): one [Z] in [0, 255] per
    element. *)
Abbreviation Buffer := (list Z).

Inductive JsNumber : Type :=
  | Finite (q : Q)
  | NaN
  | Infinity (negative : bool).

Inductive JsValue : Type :=
  | JUndefined
  | JNull
  | JBool (b : bool)
  | JNumber (n : JsNumber)
  | JString (s : string)
  | JBuffer (b : Buffer)
  | JArray (items : list JsValue).

Definition JInt (z : Z) : JsValue := JNumber (Finite (inject_Z z)).

Inductive ErrorClass : Type := Error | TypeError | RangeError.

Record JsError : Type := mkError {
  error_class : ErrorClass;
  error_message : string
}.

(** ** Handles of the objects the client works with *)

Abbreviation Socket := nat.  (* a dgram socket *)
Abbreviation Emitter := nat.  (* an EventEmitter *)
Abbreviation PromiseId := nat.  (* a Promise created by this file *)
Abbreviation ArrayId := nat.  (* a [messages] array of discover/send *)
Abbreviation SendResult := nat.  (* what the n-th call of [send] returned *)

Record Logger : Type := mkLogger {
  logger_name : string;
  logger_component : option string
}.

Inductive Target : Type :=
  | OnSocket (s : Socket)
  | OnEmitter (e : Emitter).

(** The closures the file registers as event listeners, each with the
    variables it captures. *)
Inductive Callback : Type :=
  | EventsError (log : Logger)       (* (error) => { childLogger.warn(error) } *)
  | EventsMessage (log : Logger)     (* (...args) => { childLogger.info(...args) } *)
  | SocketClose (events : Emitter)   (* () => { eventsEmitter.emit('error', new Error(..)) } *)
  | SocketError (events : Emitter)   (* (error) => { eventsEmitter.emit('error', error) } *)
  | SocketMessage (events : Emitter) (* (...args) => { eventsEmitter.emit('message', ...args) } *)
  | SetBroadcast (s : Socket)        (* () => { socket.setBroadcast(true) } *)
  | Consume (messages : ArrayId).    (* (message) => { messages.push(message) } *)

(** A registration [target.on(event, callback)], or [target.once(..)]. *)
Record Listener : Type := mkListener {
  target : Target;
  event : string;
  callback : Callback;
  once : bool
}.

(** What the closures of one [discover] or [send] call share: the socket,
    the promise whose [resolve] and [reject] they hold, and the array
    [messages]. *)
Record Exchange : Type := mkExchange {
  exchange_socket : Socket;
  exchange_promise : PromiseId;
  exchange_messages : ArrayId
}.

Record Client : Type := mkClient {
  events : Emitter;
  log : Logger;
  nonce : Buffer;
  socket : Socket
}.

Inductive Settled : Type :=
  | Messages (messages : ArrayId)
  | Instance (client : Client).

Inductive PromiseState : Type :=
  | Pending
  | Fulfilled (value : Settled)
  | Rejected (reason : JsError).

(** ** The state of the process *)

Record World : Type := mkWorld {
  nextByte_value : Z;                                       (* nextByte.value *)
  random : nat -> Q;                                        (* the draws of Math.random() *)
  random_calls : nat;                                       (* how many draws were taken *)
  sockets : nat;                                            (* sockets created so far *)
  emitters : nat;                                           (* EventEmitters created so far *)
  listeners : list Listener;                                (* target.on(event, listener), in order *)
  bind_calls : list (Socket * JsValue * PromiseId);         (* socket.bind(port, callback) *)
  transport : Socket -> option JsError;                     (* how a transmission on the socket ends *)
  send_calls : list (Socket * Buffer * JsValue);            (* send(socket, message, port) *)
  reactions : list (SendResult * Exchange * JsValue);       (* result.then(.., reject) *)
  timeouts : list (Exchange * JsValue);                     (* setTimeout(cleanup, timeout) *)
  immediates : list Exchange;                               (* setImmediate(resolve, messages) *)
  promises : list PromiseState;                             (* the promises, by identifier *)
  arrays : list (list Buffer);                              (* the messages arrays, by identifier *)
  logs : list (Logger * string * string);                   (* (logger, level, text) *)
  uncaught : list JsError                                   (* errors thrown out of callbacks *)
}.

Definition set_nextByte_value (v : Z) (w : World) : World :=
  mkWorld v (random w) (random_calls w) (sockets w) (emitters w) (listeners w)
    (bind_calls w) (transport w) (send_calls w) (reactions w) (timeouts w)
    (immediates w) (promises w) (arrays w) (logs w) (uncaught w).

Definition set_random_calls (v : nat) (w : World) : World :=
  mkWorld (nextByte_value w) (random w) v (sockets w) (emitters w)
    (listeners w) (bind_calls w) (transport w) (send_calls w) (reactions w)
    (timeouts w) (immediates w) (promises w) (arrays w) (logs w) (uncaught w).

Definition set_sockets (v : nat) (w : World) : World :=
  mkWorld (nextByte_value w) (random w) (random_calls w) v (emitters w)
    (listeners w) (bind_calls w) (transport w) (send_calls w) (reactions w)
    (timeouts w) (immediates w) (promises w) (arrays w) (logs w) (uncaught w).

Definition set_emitters (v : nat) (w : World) : World :=
  mkWorld (nextByte_value w) (random w) (random_calls w) (sockets w) v
    (listeners w) (bind_calls w) (transport w) (send_calls w) (reactions w)
    (timeouts w) (immediates w) (promises w) (arrays w) (logs w) (uncaught w).

Definition set_listeners (v : list Listener) (w : World) : World :=
  mkWorld (nextByte_value w) (random w) (random_calls w) (sockets w)
    (emitters w) v (bind_calls w) (transport w) (send_calls w) (reactions w)
    (timeouts w) (immediates w) (promises w) (arrays w) (logs w) (uncaught w).

Definition set_bind_calls (v : list (Socket * JsValue * PromiseId)) (w : World) : World :=
  mkWorld (nextByte_value w) (random w) (random_calls w) (sockets w)
    (emitters w) (listeners w) v (transport w) (send_calls w) (reactions w)
    (timeouts w) (immediates w) (promises w) (arrays w) (logs w) (uncaught w).

Definition set_send_calls (v : list (Socket * Buffer * JsValue)) (w : World) : World :=
  mkWorld (nextByte_value w) (random w) (random_calls w) (sockets w)
    (emitters w) (listeners w) (bind_calls w) (transport w) v (reactions w)
    (timeouts w) (immediates w) (promises w) (arrays w) (logs w) (uncaught w).

Definition set_reactions (v : list (SendResult * Exchange * JsValue)) (w : World) : World :=
  mkWorld (nextByte_value w) (random w) (random_calls w) (sockets w)
    (emitters w) (listeners w) (bind_calls w) (transport w) (send_calls w) v
    (timeouts w) (immediates w) (promises w) (arrays w) (logs w) (uncaught w).

Definition set_timeouts (v : list (Exchange * JsValue)) (w : World) : World :=
  mkWorld (nextByte_value w) (random w) (random_calls w) (sockets w)
    (emitters w) (listeners w) (bind_calls w) (transport w) (send_calls w)
    (reactions w) v (immediates w) (promises w) (arrays w) (logs w)
    (uncaught w).

Definition set_immediates (v : list Exchange) (w : World) : World :=
  mkWorld (nextByte_value w) (random w) (random_calls w) (sockets w)
    (emitters w) (listeners w) (bind_calls w) (transport w) (send_calls w)
    (reactions w) (timeouts w) v (promises w) (arrays w) (logs w) (uncaught w).

Definition set_promises (v : list PromiseState) (w : World) : World :=
  mkWorld (nextByte_value w) (random w) (random_calls w) (sockets w)
    (emitters w) (listeners w) (bind_calls w) (transport w) (send_calls w)
    (reactions w) (timeouts w) (immediates w) v (arrays w) (logs w)
    (uncaught w).

Definition set_arrays (v : list (list Buffer)) (w : World) : World :=
  mkWorld (nextByte_value w) (random w) (random_calls w) (sockets w)
    (emitters w) (listeners w) (bind_calls w) (transport w) (send_calls w)
    (reactions w) (timeouts w) (immediates w) (promises w) v (logs w)
    (uncaught w).

Definition set_logs (v : list (Logger * string * string)) (w : World) : World :=
  mkWorld (nextByte_value w) (random w) (random_calls w) (sockets w)
    (emitters w) (listeners w) (bind_calls w) (transport w) (send_calls w)
    (reactions w) (timeouts w) (immediates w) (promises w) (arrays w) v
    (uncaught w).

Definition set_uncaught (v : list JsError) (w : World) : World :=
  mkWorld (nextByte_value w) (random w) (random_calls w) (sockets w)
    (emitters w) (listeners w) (bind_calls w) (transport w) (send_calls w)
    (reactions w) (timeouts w) (immediates w) (promises w) (arrays w) (logs w)
    v.

(** ** Computations: a call either returns or throws, in a new state *)

Inductive Outcome (A : Type) : Type :=
  | Returned (a : A) (w : World)
  | Thrown (e : JsError) (w : World).
Arguments Returned {A} a w.
Arguments Thrown {A} e w.

Definition M (A : Type) : Type := World -> Outcome A.

Definition ret {A} (a : A) : M A := fun w => Returned a w.
Definition throw {A} (e : JsError) : M A := fun w => Thrown e w.
Definition bind {A B} (m : M A) (k : A -> M B) : M B := fun w =>
  match m w with
  | Returned a w' => k a w'
  | Thrown e w' => Thrown e w'
  end.
Definition modify (f : World -> World) : M unit := fun w => Returned tt (f w).

Declare Scope js_scope.
Delimit Scope js_scope with js.
Notation "x <- m ;; k" := (bind m (fun x => k))
  (at level 100, m at next level, right associativity) : js_scope.
Notation "m ;; k" := (bind m (fun _ => k))
  (at level 100, right associativity) : js_scope.
Local Open Scope js_scope.

Definition world_of {A} (o : Outcome A) : World :=
  match o with Returned _ w => w | Thrown _ w => w end.

(** ** The runtime: [Buffer] *)

Module Node.

(** [Buffer.alloc(size)]: a zero-filled buffer. *)
Definition Buffer_alloc (size : nat) : Buffer := replicate size 0.

(** [buf[index] = value], for an integer value: the element becomes the
    value modulo 256; an index outside the buffer is ignored. *)
Definition store (index : nat) (value : Z) (buf : Buffer) : Buffer :=
  <[index := value mod 256]> buf.

(** [buf[index]] as an operand of a bit operation: a missing element
    reads as [undefined], which the operation takes as 0. *)
Definition load (index : nat) (buf : Buffer) : Z := default 0 (buf !! index).

Definition as_buffer (v : JsValue) : option Buffer :=
  match v with JBuffer b => Some b | _ => None end.

(** [value >>> 0] for the values a length can be here: a number is
    truncated and taken modulo 2^32, and [undefined], [null], [NaN] and
    the infinities give 0.  Strings, buffers and arrays would first be
    converted to a number through their text; that conversion is not
    modelled and they count as [NaN]. *)
Definition ToUint32 (v : JsValue) : Z :=
  match v with
  | JNumber (Finite q) => Z.quot (Qnum q) (Zpos (Qden q)) mod 2 ^ 32
  | JBool true => 1
  | _ => 0
  end.

(** The error of [Buffer.concat]; Node's text has the word list in
    quotation marks. *)
Definition concat_error : JsError :=
  mkError TypeError "list argument must be an Array of Buffers".

(** [Buffer.concat(list, totalLength)].  [list] must be an [Array]
    whose elements are all buffers, otherwise a [TypeError] is thrown;
    the result is the concatenation, cut or zero-padded to
    [totalLength] when that is given.  Arguments after the second are
    ignored, as for every JavaScript function. *)
Definition Buffer_concat (arguments : list JsValue) : M Buffer :=
  let list_ := nth 0 arguments JUndefined in
  let totalLength := nth 1 arguments JUndefined in
  match list_ with
  | JArray items =>
      match mapM as_buffer items with
      | Some buffers =>
          let all := mjoin buffers in
          match totalLength with
          | JUndefined => ret all
          | _ => ret (resize (Z.to_nat (ToUint32 totalLength)) 0 all)
          end
      | None => throw concat_error
      end
  | _ => throw concat_error
  end.

(** The bytes [buf.fill(value, offset, end)] writes when [value] is a
    buffer: its content, repeated, from [offset] on. *)
Fixpoint fill_from (count : nat) (k : nat) (value : Buffer) (index : nat)
    (buf : Buffer) : Buffer :=
  match count with
  | O => buf
  | S count' =>
      fill_from count' (S k) value (S index)
        (<[index := default 0 (value !! (k mod length value)%nat)]> buf)
  end.

(** [buf.fill(value, offset, end)] with a buffer as [value]: a
    [RangeError] when [end] is past the buffer, a [TypeError] when
    [value] is empty and there is something to fill. *)
Definition Buffer_fill (value : Buffer) (offset end_ : nat) (buf : Buffer)
    : M Buffer :=
  if decide (length buf < end_)%nat
  then throw (mkError RangeError "Out of range index")
  else if decide (end_ <= offset)%nat then ret buf
  else if decide (length value = 0%nat)
  then throw (mkError TypeError "The argument 'value' is invalid")
  else ret (fill_from (end_ - offset) 0 value offset buf).

(** [Object.freeze(buffer)]: a typed array that has elements cannot be
    frozen, the call throws a [TypeError]; an empty one is returned. *)
Definition freeze_error : JsError :=
  mkError TypeError "Cannot freeze array buffer views with elements".

Definition Object_freeze (b : Buffer) : M Buffer :=
  match b with
  | [] => ret b
  | _ :: _ => throw freeze_error
  end.

(** [Number.isInteger(value)]. *)
Definition Number_isInteger (v : JsValue) : bool :=
  match v with
  | JNumber (Finite q) => Qeq_bool (inject_Z (Qfloor q)) q
  | _ => false
  end.

(** [Math.random()]: the next draw. *)
Definition Math_random : M Q := fun w =>
  Returned (random w (random_calls w)) (set_random_calls (S (random_calls w)) w).

(** [Math.floor] on a finite number. *)
Definition Math_floor (q : Q) : Z := Qfloor q.

End Node.
Import Node.

(** ** The sequence counter (lines 12-14) *)

Definition nextByteValue (number : Z) : Z := (number + 1) mod 0x100.

Definition nextByte : M Z := fun w =>
  let value := nextByteValue (nextByte_value w) in
  Returned value (set_nextByte_value value w).

(** ** The encoder (lines 17-56) *)

Definition over_limit : JsError := mkError Error "over 4KB limit".

(** The statements of [createMessage] that follow the concatenation
    (lines 46-53), on the buffer [message] it produced. *)
Definition createMessage_stamp (client : Client) (message : Buffer) : M Buffer :=
  let length_ := Z.of_nat (length message) in
  if decide (length_ > 65535) then throw over_limit else
  let message := store 0 (Z.shiftr (Z.land length_ 0xFF00) 8) message in
  let message := store 1 (Z.shiftr (Z.land length_ 0x00FF) 0) message in
  let message := store 2 0x14 (* 0b00010100 *) message in
  message <- Buffer_fill (nonce client) 4 8 message ;;
  sequence <- nextByte ;;
  let message := store 23 sequence message in
  ret message.

Definition createMessage (client : Client) (payload : JsValue) : M Buffer :=
  let frame := Buffer_alloc 8 in
  let address := Buffer_alloc 16 in
  let header := Buffer_alloc 12 in
  message <- Buffer_concat [JBuffer frame; JBuffer address; JBuffer header; payload] ;;
  createMessage_stamp client message.

(** ** The runtime: listeners, timers and promises *)

Module Runtime.

#[global] Instance Logger_eq_dec : EqDecision Logger.
Proof. solve_decision. Defined.
#[global] Instance Target_eq_dec : EqDecision Target.
Proof. solve_decision. Defined.
#[global] Instance Callback_eq_dec : EqDecision Callback.
Proof. solve_decision. Defined.

(** [target.on(event, listener)] *)
Definition on (t : Target) (name : string) (listener : Callback) : M unit :=
  modify (fun w => set_listeners (listeners w ++ [mkListener t name listener false]) w).

(** [target.once(event, listener)] *)
Definition once_ (t : Target) (name : string) (listener : Callback) : M unit :=
  modify (fun w => set_listeners (listeners w ++ [mkListener t name listener true]) w).

Definition registers (t : Target) (name : string) (listener : Callback)
    (l : Listener) : bool :=
  bool_decide (target l = t) && bool_decide (event l = name)
  && bool_decide (callback l = listener).

(** The first registration of [listener] for [(t, name)] taken out of
    a list of listeners. *)
Fixpoint remove_first (t : Target) (name : string) (listener : Callback)
    (ls : list Listener) : list Listener :=
  match ls with
  | [] => []
  | l :: rest =>
      if registers t name listener l then rest
      else l :: remove_first t name listener rest
  end.

(** [target.removeListener(event, listener)] takes out one registration
    of the listener, the one added last. *)
Definition removeListener (t : Target) (name : string) (listener : Callback) : M unit :=
  modify (fun w =>
    set_listeners (rev (remove_first t name listener (rev (listeners w)))) w).

(** [socket.bind(port, callback)], where the callback is the closure of
    [Client.create] over the [resolve] and [reject] of promise [p]. *)
Definition socket_bind (s : Socket) (port : JsValue) (p : PromiseId) : M unit :=
  modify (fun w => set_bind_calls (bind_calls w ++ [(s, port, p)]) w).

(** [dgram.createSocket(options)]: a new socket. *)
Definition createSocket : M Socket := fun w =>
  Returned (sockets w) (set_sockets (S (sockets w)) w).

(** [new EventEmitter()] *)
Definition new_EventEmitter : M Emitter := fun w =>
  Returned (emitters w) (set_emitters (S (emitters w)) w).

(** [parentLogger.child({ component })] *)
Definition child (parent : Logger) (component : string) : Logger :=
  mkLogger (logger_name parent) (Some component).

(** [logger.info(fields, text)] *)
Definition info (l : Logger) (text : string) : M unit :=
  modify (fun w => set_logs (logs w ++ [(l, "info", text)]) w).

(** [setTimeout(cleanup, timeout)] *)
Definition setTimeout (cleanup : Exchange) (timeout : JsValue) : M unit :=
  modify (fun w => set_timeouts (timeouts w ++ [(cleanup, timeout)]) w).

(** [setImmediate(resolve, messages)] *)
Definition setImmediate (x : Exchange) : M unit :=
  modify (fun w => set_immediates (immediates w ++ [x]) w).

(** [const messages = []] *)
Definition new_array : M ArrayId := fun w =>
  Returned (length (arrays w)) (set_arrays (arrays w ++ [[]]) w).

(** [messages.push(message)] *)
Definition push (messages : ArrayId) (message : Buffer) : M unit :=
  modify (fun w =>
    set_arrays (alter (fun ms => ms ++ [message]) messages (arrays w)) w).

(** A promise settles once: [resolve] and [reject] do nothing to a
    promise that is no longer pending. *)
Definition settled (p : PromiseId) (state : PromiseState)
    (ps : list PromiseState) : list PromiseState :=
  match ps !! p with
  | Some Pending => <[p := state]> ps
  | _ => ps
  end.

Definition settle (p : PromiseId) (state : PromiseState) (w : World) : World :=
  set_promises (settled p state (promises w)) w.

Definition resolve (p : PromiseId) (value : Settled) : M unit :=
  modify (settle p (Fulfilled value)).

Definition reject (p : PromiseId) (reason : JsError) : M unit :=
  modify (settle p (Rejected reason)).

(** [new Promise(executor)]: the executor runs at once; what it throws
    rejects the promise. *)
Definition new_Promise (executor : PromiseId -> M unit) : M PromiseId := fun w =>
  let p := length (promises w) in
  match executor p (set_promises (promises w ++ [Pending]) w) with
  | Returned _ w' => Returned p w'
  | Thrown e w' => Returned p (settle p (Rejected e) w')
  end.

(** [result.then(() => setTimeout(cleanup, timeout), reject)] on what a
    call of [send] returned. *)
Definition then_ (result : SendResult) (x : Exchange) (timeout : JsValue) : M unit :=
  modify (fun w => set_reactions (reactions w ++ [(result, x, timeout)]) w).

(** What the event loop does with a callback it runs: an error thrown
    out of it is nobody's to catch. *)
Definition run (m : M unit) (w : World) : World :=
  match m w with
  | Returned _ w' => w'
  | Thrown e w' => set_uncaught (uncaught w' ++ [e]) w'
  end.

End Runtime.
Import Runtime.

(** ** The transport (lines 58-62) *)

(** [send] is [_.throttle(sendPromise, 50)]: lodash decides when a call
    reaches [sendPromise] and the socket.  Neither lodash nor the socket
    belongs to this file; a call of [send] is recorded, in call order,
    and gives a handle on the promise the throttled function returned.
    How the transmission ends is the environment's: see [transport] and
    [SendSettled] below. *)
Definition send (socket : Socket) (message : Buffer) (port : JsValue) : M SendResult :=
  fun w => Returned (length (send_calls w))
                    (set_send_calls (send_calls w ++ [(socket, message, port)]) w).

(** ** The nonce (lines 8-10) *)

Definition rootLogger : Logger := mkLogger "LIFX" None.

(** [nonceByte(r = Math.random())] *)
Definition nonceByte (r : option Q) : M Z :=
  r <- match r with Some r => ret r | None => Math_random end ;;
  ret (Math_floor (r * inject_Z 0x100)).

(** [nonceBytes(length)]: [Array.from({ length }, nonceByte)] calls
    [nonceByte] once per element, with [undefined] for [r]. *)
Fixpoint nonceBytes (length : nat) : M (list Z) :=
  match length with
  | O => ret []
  | S n =>
      byte <- nonceByte None ;;
      bytes <- nonceBytes n ;;
      ret (byte :: bytes)
  end.

(** [Buffer.from(array)]: each entry modulo 256. *)
Definition Buffer_from (array : list Z) : Buffer := (fun v => v mod 256) <$> array.

(** ** The client (lines 64-159) *)

(** The argument of the constructor, [{ events, log, socket }]. *)
Record ClientArguments : Type := mkArguments {
  arguments_events : option Emitter;
  arguments_log : option Logger;
  arguments_socket : Socket
}.

Definition Client_constructor (arguments : ClientArguments) : M Client :=
  let parentLogger := default rootLogger (arguments_log arguments) in
  let socket := arguments_socket arguments in
  let childLogger := child parentLogger "client" in
  eventsEmitter <- match arguments_events arguments with
                   | Some e => ret e
                   | None => new_EventEmitter
                   end ;;
  on (OnEmitter eventsEmitter) "error" (EventsError childLogger) ;;
  on (OnEmitter eventsEmitter) "message" (EventsMessage childLogger) ;;
  on (OnSocket socket) "close" (SocketClose eventsEmitter) ;;
  on (OnSocket socket) "error" (SocketError eventsEmitter) ;;
  on (OnSocket socket) "message" (SocketMessage eventsEmitter) ;;
  bytes <- nonceBytes 4 ;;
  nonce <- Object_freeze (Buffer_from bytes) ;;
  ret (mkClient eventsEmitter childLogger nonce socket).

(** [Client.createBroadcastSocket()] *)
Definition Client_createBroadcastSocket : M Socket :=
  socket <- createSocket ;;
  once_ (OnSocket socket) "listening" (SetBroadcast socket) ;;
  ret socket.

(** [port < bound] and [port > bound], for a number. *)
Definition js_lt (v : JsValue) (bound : Z) : bool :=
  match v with
  | JNumber (Finite q) => negb (Qle_bool (inject_Z bound) q)
  | JNumber (Infinity negative) => negative
  | _ => false
  end.

Definition js_gt (v : JsValue) (bound : Z) : bool :=
  match v with
  | JNumber (Finite q) => negb (Qle_bool q (inject_Z bound))
  | JNumber (Infinity negative) => negb negative
  | _ => false
  end.

(** The callback [Client.create] gives to [socket.bind]
    (lines 99-102). *)
Definition bound (p : PromiseId) (socket : Socket) (bindError : option JsError) : M unit :=
  match bindError with
  | Some e => reject p e
  | None =>
      client <- Client_constructor (mkArguments None None socket) ;;
      resolve p (Instance client)
  end.

(** A parameter with a default: the default stands in for [undefined]. *)
Definition or_default (v : JsValue) (d : JsValue) : JsValue :=
  match v with JUndefined => d | _ => v end.

(** The properties [Client.create] reads from its merged arguments;
    [JUndefined] and [None] stand for a property that is not there. *)
Record CreateOptions : Type := mkOptions {
  options_port : JsValue;
  options_socket : option Socket
}.

Definition port_error : JsError :=
  mkError TypeError "port must be a valid 16-bit integer".

Definition Client_create (options : CreateOptions) : M PromiseId :=
  let getSocket := Client_createBroadcastSocket in
  let port := or_default (options_port options) (JInt 56700) in
  socket <- match options_socket options with
            | Some socket => ret socket
            | None => getSocket
            end ;;
  new_Promise (fun p =>
    if negb (Number_isInteger port) || js_lt port 0 || js_gt port 65535
    then throw port_error
    else socket_bind socket port p).

(** [message[index] |= bits] *)
Definition store_or (index : nat) (bits : Z) (message : Buffer) : Buffer :=
  store index (Z.lor (load index message) bits) message.

(** The closures of [discover] and [send] (lines 119-125, 142-148). *)
Definition consume (messages : ArrayId) (message : Buffer) : M unit :=
  push messages message.

Definition cleanup (x : Exchange) : M unit :=
  removeListener (OnSocket (exchange_socket x)) "message"
                 (Consume (exchange_messages x)) ;;
  setImmediate x.

(** The two statements of [discover]'s trigger that mark the message
    (lines 129-130). *)
Definition discover_tags (message : Buffer) : Buffer :=
  let message := store_or 2 0x20 (* 0b00100000 *) message in
  let message := store_or 22 0x03 (* 0b00000011 *) message in
  message.

Definition discover_trigger (this : Client) (port : JsValue) : M SendResult :=
  message <- createMessage this JUndefined ;;
  let message := discover_tags message in
  send (socket this) message port.

Definition Client_discover (this : Client) (timeout port : JsValue) : M PromiseId :=
  let timeout := or_default timeout (JInt 1000) in
  let port := or_default port (JInt 56700) in
  info (log this) "will #discover" ;;
  new_Promise (fun p =>
    messages <- new_array ;;
    let x := mkExchange (socket this) p messages in
    on (OnSocket (socket this)) "message" (Consume messages) ;;
    result <- discover_trigger this port ;;
    then_ result x timeout).

Definition send_trigger (this : Client) (payload : JsValue) : M SendResult :=
  message <- createMessage this payload ;;
  send (socket this) message JUndefined.

Definition Client_send (this : Client) (timeout payload : JsValue) : M PromiseId :=
  let timeout := or_default timeout (JInt 1000) in
  info (log this) "will #send" ;;
  new_Promise (fun p =>
    messages <- new_array ;;
    let x := mkExchange (socket this) p messages in
    on (OnSocket (socket this)) "message" (Consume messages) ;;
    result <- send_trigger this payload ;;
    then_ result x timeout).

(** ** Runs of the program *)

(** The state once the module is loaded: [nextByte.value] is 0 (line 14)
    and nothing is registered yet.  The draws of [Math.random] and the
    fate of transmissions are the environment's. *)
Definition loaded (random : nat -> Q) (transport : Socket -> option JsError) : World :=
  mkWorld 0 random 0 0 0 [] [] transport [] [] [] [] [] [] [] [].

(** What happens in a run: the program calls the client, and the
    environment runs the callbacks the client left with it. *)
Inductive Event : Type :=
  | CallCreate (options : CreateOptions)
  | CallDiscover (this : Client) (timeout port : JsValue)
  | CallSend (this : Client) (timeout payload : JsValue)
  | BindDone (i : nat) (bindError : option JsError)
      (* the callback of the i-th [socket.bind] call is called *)
  | SendSettled (result : SendResult)
      (* the promise the [result]-th [send] call returned settles *)
  | TimerFires (i : nat)
      (* the i-th pending [setTimeout] callback runs *)
  | ImmediateRuns (i : nat)
      (* the i-th pending [setImmediate] callback runs *)
  | Datagram (s : Socket) (message : Buffer).
      (* the [consume] listeners of the socket get a datagram *)

(** The reaction [r], if it was registered on [result], run for the way
    the transmission ended: [() => setTimeout(cleanup, timeout)] when it
    went out, [reject] when it failed. *)
Definition react (result : SendResult) (sendError : option JsError)
    (r : SendResult * Exchange * JsValue) : M unit :=
  let '(result', x, timeout) := r in
  if bool_decide (result' = result) then
    match sendError with
    | None => setTimeout x timeout
    | Some e => reject (exchange_promise x) e
    end
  else ret tt.

Definition awaits (result : SendResult) (r : SendResult * Exchange * JsValue) : bool :=
  bool_decide (r.1.1 = result).

(** A datagram given to listener [l] if it is a [consume] closure
    listening for ['message'] on socket [s].  The other ['message']
    listener of a socket, the constructor's, passes the datagram on to
    the logger and is left out. *)
Definition consumes (s : Socket) (message : Buffer) (l : Listener) : M unit :=
  match callback l with
  | Consume messages =>
      if bool_decide (target l = OnSocket s) && bool_decide (event l = "message")
      then consume messages message
      else ret tt
  | _ => ret tt
  end.

Definition handle (ev : Event) (w : World) : World :=
  match ev with
  | CallCreate options => world_of (Client_create options w)
  | CallDiscover this timeout port => world_of (Client_discover this timeout port w)
  | CallSend this timeout payload => world_of (Client_send this timeout payload w)
  | BindDone i bindError =>
      match bind_calls w !! i with
      | Some (socket, _, p) => run (bound p socket bindError) w
      | None => w
      end
  | SendSettled result =>
      match send_calls w !! result with
      | Some (socket, _, _) =>
          foldl (fun w r => run (react result (transport w socket) r) w)
                (set_reactions (filter (fun r => negb (awaits result r)) (reactions w)) w)
                (reactions w)
      | None => w
      end
  | TimerFires i =>
      match timeouts w !! i with
      | Some (x, _) => run (cleanup x) (set_timeouts (delete i (timeouts w)) w)
      | None => w
      end
  | ImmediateRuns i =>
      match immediates w !! i with
      | Some x =>
          run (resolve (exchange_promise x) (Messages (exchange_messages x)))
              (set_immediates (delete i (immediates w)) w)
      | None => w
      end
  | Datagram s message =>
      foldl (fun w l => run (consumes s message l) w) w (listeners w)
  end.

Definition handle_all (evs : list Event) (w : World) : World :=
  foldl (fun w ev => handle ev w) w evs.

(** ** Vocabulary of the properties *)

(** What the statements of [createMessage_stamp] leave in [message] when
    none of them throws. *)
Definition stamped (client : Client) (message : Buffer) (w : World) : Buffer :=
  let size := Z.of_nat (length message) in
  store 23 (nextByteValue (nextByte_value w))
    (fill_from 4 0 (nonce client) 4
       (store 2 0x14
          (store 1 (Z.shiftr (Z.land size 0x00FF) 0)
             (store 0 (Z.shiftr (Z.land size 0xFF00) 8) message)))).

(** The buffer the four blocks of [createMessage] make when they are
    joined: header blocks of 8, 16 and 12 zero bytes, then the payload. *)
Definition blocks (payload : Buffer) : Buffer :=
  Buffer_alloc 8 ++ Buffer_alloc 16 ++ Buffer_alloc 12 ++ payload.

(** A run of encodings, one after the other, for any clients. *)
Fixpoint stamp_all (jobs : list (Client * Buffer)) : M (list Buffer) :=
  match jobs with
  | [] => ret []
  | (client, message) :: rest =>
      frame <- createMessage_stamp client message ;;
      frames <- stamp_all rest ;;
      ret (frame :: frames)
  end.

(** The option flags the specification gives the encoder. *)
Record EncodeOptions : Type := mkEncodeOptions {
  tagged : bool;
  ackRequired : bool;
  resRequired : bool;
  encode_target : Buffer   (* 8 bytes *)
}.

(** A frame that carries the target and the ack/res bits of [options]. *)
Definition honours (options : EncodeOptions) (frame : Buffer) : Prop :=
  take 8 (drop 8 frame) = encode_target options /\
  Z.testbit (load 22 frame) 1 = ackRequired options /\
  Z.testbit (load 22 frame) 0 = resRequired options.

(** A port as the specification wants it: an integer in [0, 65535]. *)
Definition is_port (v : JsValue) : Prop :=
  exists (q : Q) (z : Z), v = JNumber (Finite q) /\ (q == inject_Z z)%Q /\ 0 <= z <= 65535.

(** The port [Client.create] works with. *)
Definition effective_port (options : CreateOptions) : JsValue :=
  or_default (options_port options) (JInt 56700).

(** The check of [Client.create] (line 96). *)
Definition port_rejected (port : JsValue) : bool :=
  negb (Number_isInteger port) || js_lt port 0 || js_gt port 65535.

(** Promise [p] is not fulfilled with a client. *)
Definition no_instance (p : PromiseId) (ps : list PromiseState) : Prop :=
  forall c, ps !! p <> Some (Fulfilled (Instance c)).

(** How the promises of a state can differ from those of an earlier one:
    a settled promise stays as it is, and none is newly fulfilled with a
    client. *)
Definition evolves (ps ps' : list PromiseState) : Prop :=
  (forall p st, ps !! p = Some st -> st <> Pending -> ps' !! p = Some st) /\
  (forall p c, ps' !! p = Some (Fulfilled (Instance c)) ->
               ps !! p = Some (Fulfilled (Instance c))).

(** What no call of the client and no callback changes: the calls of
    [send] made so far and the sequence counter stay, and the promises
    only evolve. *)
Definition stable (w w' : World) : Prop :=
  send_calls w' = send_calls w /\
  nextByte_value w' = nextByte_value w /\
  evolves (promises w) (promises w').

(** The listener [discover] and [send] attach for an exchange. *)
Definition consume_listener (s : Socket) (messages : ArrayId) : Listener :=
  mkListener (OnSocket s) "message" (Consume messages) false.


(** C8 as the specification states it: the encoder returns a frame that
    carries the target and the ack/res bits of the options.  The encoder
    has no parameter for a message type or for options, so they cannot
    reach it. *)
Definition encoder_honours (client : Client) (payload : JsValue)
    (options : EncodeOptions) (w : World) : Prop :=
  exists frame w',
    createMessage client payload w = Returned frame w' /\ honours options frame.

(** Sample inputs. *)
Definition wanted_options : EncodeOptions :=
  mkEncodeOptions false true true [1; 2; 3; 4; 5; 6; 7; 8].

Definition sample_world : World := loaded (fun _ => 1 # 2)%Q (fun _ => None).


(** A state in which an exchange of [sample_client] would be listening,
    had its frame been handed to the transport: its promise is pending,
    its listener attached, its reaction registered on the one call of
    [send]. *)
Definition armed_world : World :=
  set_reactions [(0%nat, mkExchange 0 0 0, JInt 100)]
    (set_send_calls [(0%nat, blocks [], JInt 56700)]
       (set_listeners [consume_listener 0 0]
          (set_arrays [[]] (set_promises [Pending] sample_world)))).

Definition sample_client : Client :=
  mkClient 0 (mkLogger "LIFX" (Some "client")) [0xDE; 0xAD; 0xBE; 0xEF] 0.

(** ** Vocabulary of the further properties *)

(** [n] calls of [nextByte], one after the other, and what they return. *)
Fixpoint nextBytes (n : nat) : M (list Z) :=
  match n with
  | O => ret []
  | S n =>
      byte <- nextByte ;;
      bytes <- nextBytes n ;;
      ret (byte :: bytes)
  end.

(** A call of [discover] or of [send]. *)
Definition exchange_call (ev : Event) : option Client :=
  match ev with
  | CallDiscover this _ _ | CallSend this _ _ => Some this
  | _ => None
  end.

(** The listeners a row of [discover] and [send] calls attaches, when the
    first array [messages] they make is number [first]. *)
Fixpoint attached (first : ArrayId) (calls : list Client) : list Listener :=
  match calls with
  | [] => []
  | this :: rest => consume_listener (socket this) first :: attached (S first) rest
  end.



(** ** Comparing two values: [delta] of [HTTPv1.js] (lines 347-366) *)

Module HTTPv1.

(** A value as [delta] looks at it.  An object (a plain object, an array,
    a function) is its identity and the own enumerable properties that
    [_.keys] lists, each with the value [object[key]] reads; an array has
    its indices as keys.  Values are finite trees: an object that
    contains itself has no counterpart here. *)
Inductive Value : Type :=
  | VUndefined
  | VNull
  | VBoolean (b : bool)
  | VNumber (n : JsNumber)
  | VString (s : string)
  | VObject (identity : nat) (properties : list (string * Value)).

(** What [delta] returns: [null], the array [[left, right]], or the
    object [result] with the entries it was given. *)
Inductive Difference : Type :=
  | NoDifference
  | Tuple (left right : Value)
  | Differences (entries : list (string * Difference)).

(** [a === b] on numbers: [NaN] equals nothing. *)
Definition number_equal (a b : JsNumber) : bool :=
  match a, b with
  | Finite p, Finite q => Qeq_bool p q
  | Infinity s, Infinity t => Bool.eqb s t
  | _, _ => false
  end.

(** [left === right]: primitives by value, objects by identity. *)
Definition strict_equal (left right : Value) : bool :=
  match left, right with
  | VUndefined, VUndefined => true
  | VNull, VNull => true
  | VBoolean a, VBoolean b => Bool.eqb a b
  | VNumber a, VNumber b => number_equal a b
  | VString a, VString b => String.eqb a b
  | VObject i _, VObject j _ => Nat.eqb i j
  | _, _ => false
  end.

(** [object[key]] for an own property, [None] when there is none. *)
Fixpoint property {A : Type} (key : string) (properties : list (string * A)) : option A :=
  match properties with
  | [] => None
  | (k, v) :: rest => if String.eqb key k then Some v else property key rest
  end.

(** [set.has(key)] *)
Definition has (key : string) (keys : list string) : bool :=
  existsb (String.eqb key) keys.

(** [result[key] = value], for a value that is an array or an object.  On
    the fresh [result] the key ["__proto__"] is the accessor of
    [Object.prototype]: the assignment sets the prototype and adds no own
    property. *)
Definition assign {A : Type} (key : string) (value : A) (rest : list (string * A))
    : list (string * A) :=
  if String.eqb key "__proto__" then rest else (key, value) :: rest.

Section Loop.

Variable compare : Value -> Value -> Difference.
Variable right_properties : list (string * Value).

(** The turns of the loop for the keys of [left], each key once: a key
    that [right] has too gets the difference of the two values when
    there is one, a key that only [left] has gets [[left[key], null]]. *)
Fixpoint left_entries (seen : list string) (properties : list (string * Value))
    : list (string * Difference) :=
  match properties with
  | [] => []
  | (key, left_value) :: rest =>
      if has key seen then left_entries seen rest
      else
        match property key right_properties with
        | Some right_value =>
            match compare left_value right_value with
            | NoDifference => left_entries (key :: seen) rest
            | value => assign key value (left_entries (key :: seen) rest)
            end
        | None =>
            assign key (Tuple left_value VNull) (left_entries (key :: seen) rest)
        end
  end.

End Loop.

(** The turns of the loop for the keys that only [right] has, each key
    once: [[null, right[key]]]. *)
Fixpoint right_entries (seen : list string) (properties : list (string * Value))
    : list (string * Difference) :=
  match properties with
  | [] => []
  | (key, right_value) :: rest =>
      if has key seen then right_entries seen rest
      else assign key (Tuple VNull right_value) (right_entries (key :: seen) rest)
  end.

(** The entries are listed in the order the loop assigns them, the keys
    of [left] first; an object lists integer-like keys before the others,
    which a lookup by key does not see. *)
Fixpoint delta (left right : Value) {struct left} : Difference :=
  if strict_equal left right then NoDifference
  else
    match left, right with
    | VObject _ left_properties, VObject _ right_properties =>
        let result :=
          left_entries delta right_properties [] left_properties
          ++ right_entries (left_properties.*1) right_properties in
        match result with
        | [] => NoDifference
        | _ :: _ => Differences result
        end
    | _, _ => Tuple left right
    end.

(** What the loop leaves under a key of [left]. *)
Definition left_entry (compare : Value -> Value -> Difference)
    (rps : list (string * Value)) (lv : Value) (key : string) : option Difference :=
  match property key rps with
  | Some rv =>
      match compare lv rv with
      | NoDifference => None
      | value => Some value
      end
  | None => Some (Tuple lv VNull)
  end.

(** The entry of a difference under a key. *)
Definition entry (key : string) (d : Difference) : option Difference :=
  match d with
  | Differences entries => property key entries
  | _ => None
  end.

(** Two values [delta] does not tell apart: strictly equal, or two
    objects with the same keys whose values, key by key, it does not tell
    apart either; the key ["__proto__"] is not looked at. *)
Inductive alike : Value -> Value -> Prop :=
  | alike_equal (left right : Value) :
      strict_equal left right = true -> alike left right
  | alike_objects (i j : nat) (lps rps : list (string * Value)) :
      (forall key, key <> "__proto__" ->
         (property key lps = None <-> property key rps = None)) ->
      (forall key lv rv, key <> "__proto__" ->
         property key lps = Some lv -> property key rps = Some rv -> alike lv rv) ->
      alike (VObject i lps) (VObject j rps).

(** A difference read from the other side: every tuple turned round. *)
Fixpoint mirror (d : Difference) : Difference :=
  match d with
  | NoDifference => NoDifference
  | Tuple l r => Tuple r l
  | Differences entries => Differences (map (fun kd => (kd.1, mirror kd.2)) entries)
  end.

(** Two differences that say the same, in whatever order their entries
    are listed. *)
Inductive agree : Difference -> Difference -> Prop :=
  | agree_null : agree NoDifference NoDifference
  | agree_tuple (left right : Value) : agree (Tuple left right) (Tuple left right)
  | agree_entries (es es' : list (string * Difference)) :
      (forall key, property key es = None <-> property key es' = None) ->
      (forall key d d', property key es = Some d -> property key es' = Some d' ->
         agree d d') ->
      agree (Differences es) (Differences es').

End HTTPv1.

(** * Properties *)

(** ** The sequence counter *)

Lemma nextByteValue_range (number : Z) : 0 <= nextByteValue number < 256.
Proof. unfold nextByteValue. apply Z.mod_pos_bound. lia. Qed.

Lemma nextByte_spec (w : World) :
  nextByte w = Returned ((nextByte_value w + 1) mod 256)
                        (set_nextByte_value ((nextByte_value w + 1) mod 256) w).
Proof. reflexivity. Qed.

(** [n] calls of [nextByteValue] in a row. *)
Lemma nextByteValue_iter (n : nat) (v : Z) :
  0 <= v < 256 -> Nat.iter n nextByteValue v = (v + Z.of_nat n) mod 256.
Proof.
  intros Hv. induction n as [|n IH].
  - simpl. rewrite Z.add_0_r, Z.mod_small; lia.
  - rewrite Nat.iter_succ, IH. unfold nextByteValue.
    rewrite Zplus_mod_idemp_l. f_equal. lia.
Qed.

(** ** The statements of the encoder after the concatenation *)

Section Stamp.

Variable client : Client.
Variable message : Buffer.
Variable w : World.

Let size : Z := Z.of_nat (length message).

Lemma stamp_over_limit :
  size > 65535 -> createMessage_stamp client message w = Thrown over_limit w.
Proof.
  intros H. unfold createMessage_stamp. destruct (decide _) as [_|n]; [reflexivity|].
  contradiction.
Qed.

Lemma stamp_returns :
  (8 <= length message)%nat -> size <= 65535 -> nonce client <> [] ->
  createMessage_stamp client message w =
    Returned (stamped client message w)
             (set_nextByte_value (nextByteValue (nextByte_value w)) w).
Proof.
  intros Hlen Hsize Hnonce. unfold createMessage_stamp, stamped.
  destruct (decide _) as [Hgt|_]; [fold size in Hgt; lia|].
  unfold Buffer_fill, store, bind. rewrite !length_insert.
  destruct (decide (length message < 8)%nat); [lia|].
  destruct (decide (8 <= 4)%nat); [lia|].
  destruct (decide (length (nonce client) = 0%nat)) as [H0|_].
  { destruct (nonce client); [congruence|discriminate]. }
  reflexivity.
Qed.

Lemma stamp_inversion frame w' :
  createMessage_stamp client message w = Returned frame w' ->
  (8 <= length message)%nat /\ size <= 65535 /\ nonce client <> [] /\
  frame = stamped client message w /\
  w' = set_nextByte_value (nextByteValue (nextByte_value w)) w.
Proof.
  unfold createMessage_stamp, stamped.
  destruct (decide _) as [|Hle]; [discriminate|]. fold size in Hle.
  unfold Buffer_fill, store, bind. rewrite !length_insert.
  destruct (decide (length message < 8)%nat); [discriminate|].
  destruct (decide (8 <= 4)%nat); [lia|].
  destruct (decide (length (nonce client) = 0%nat)) as [|Hn]; [discriminate|].
  cbn. intros [= <- <-]. repeat split; try lia.
  intros E. rewrite E in Hn. exact (Hn eq_refl).
Qed.

End Stamp.

(** ** The bytes of a stamped message *)

Lemma length_fill_from value count : forall k index (buf : Buffer),
  length (fill_from count k value index buf) = length buf.
Proof.
  induction count as [|count IH]; intros k index buf; simpl; [reflexivity|].
  rewrite IH. apply length_insert.
Qed.

Lemma lookup_fill_from value count : forall k index (buf : Buffer) (i : nat),
  (index + count <= length buf)%nat ->
  fill_from count k value index buf !! i =
    if decide (index <= i < index + count)%nat
    then Some (default 0 (value !! ((k + (i - index)) mod length value)%nat))
    else buf !! i.
Proof.
  induction count as [|count IH]; intros k index buf i Hlen; simpl.
  - destruct (decide _); [lia|reflexivity].
  - rewrite IH by (rewrite length_insert; lia).
    destruct (decide (S index <= i < S index + count)%nat) as [Hin|Hout].
    + destruct (decide _) as [_|?]; [|lia].
      replace (S k + (i - S index))%nat with (k + (i - index))%nat by lia.
      reflexivity.
    + destruct (decide (index <= i < index + S count)%nat) as [Hin'|Hout'].
      * assert (i = index) as -> by lia.
        rewrite list_lookup_insert_eq by lia.
        replace (k + (index - index))%nat with k by lia. reflexivity.
      * apply list_lookup_insert_ne. lia.
Qed.

Lemma size_high (n : Z) : 0 <= n <= 65535 ->
  Z.shiftr (Z.land n 0xFF00) 8 mod 256 = n / 256.
Proof.
  intros H. rewrite Z.shiftr_land. change (Z.shiftr 0xFF00 8) with (Z.ones 8).
  rewrite Z.land_ones by lia. rewrite Z.shiftr_div_pow2 by lia.
  change (2 ^ 8) with 256. rewrite Z.mod_mod by lia. apply Z.mod_small.
  split; [apply Z.div_pos; lia|]. apply Z.div_lt_upper_bound; lia.
Qed.

Lemma size_low (n : Z) : 0 <= n ->
  Z.shiftr (Z.land n 0x00FF) 0 mod 256 = n mod 256.
Proof.
  intros H. rewrite Z.shiftr_0_r. change 0x00FF with (Z.ones 8).
  rewrite Z.land_ones by lia. change (2 ^ 8) with 256. apply Z.mod_mod. lia.
Qed.

Section Layout.
Variable client : Client.
Variable message : Buffer.
Variable w : World.
Hypothesis Hlen : (24 <= length message)%nat.

Lemma stamped_length : length (stamped client message w) = length message.
Proof. unfold stamped, store. rewrite length_insert, length_fill_from, !length_insert. reflexivity. Qed.

Lemma stamped_lookup (i : nat) :
  stamped client message w !! i =
    if decide (i = 23%nat) then Some (nextByteValue (nextByte_value w))
    else if decide (4 <= i < 8)%nat
         then Some (default 0 (nonce client !! ((i - 4) mod length (nonce client))%nat))
    else if decide (i = 2%nat) then Some 0x14
    else if decide (i = 1%nat) then Some (Z.shiftr (Z.land (Z.of_nat (length message)) 0x00FF) 0 mod 256)
    else if decide (i = 0%nat) then Some (Z.shiftr (Z.land (Z.of_nat (length message)) 0xFF00) 8 mod 256)
    else message !! i.
Proof.
  unfold stamped, store.
  destruct (decide (i = 23%nat)) as [->|H23].
  { rewrite list_lookup_insert_eq by (rewrite length_fill_from, !length_insert; lia).
    rewrite Z.mod_small by apply nextByteValue_range. reflexivity. }
  rewrite list_lookup_insert_ne by lia.
  rewrite lookup_fill_from by (rewrite !length_insert; lia).
  destruct (decide (4 <= i < 4 + 4)%nat) as [H47|H47];
    destruct (decide (4 <= i < 8)%nat) as [H47'|H47']; try lia.
  { reflexivity. }
  destruct (decide (i = 2%nat)) as [->|H2].
  { rewrite list_lookup_insert_eq by (rewrite !length_insert; lia). reflexivity. }
  rewrite list_lookup_insert_ne by lia.
  destruct (decide (i = 1%nat)) as [->|H1].
  { rewrite list_lookup_insert_eq by (rewrite !length_insert; lia). reflexivity. }
  rewrite list_lookup_insert_ne by lia.
  destruct (decide (i = 0%nat)) as [->|H0].
  { rewrite list_lookup_insert_eq by lia. reflexivity. }
  apply list_lookup_insert_ne. lia.
Qed.
End Layout.

(** ** The layout of a frame *)

Lemma lor_mod_testbit (b bits : Z) (n : Z) :
  0 <= n < 8 -> Z.testbit bits n = true -> Z.testbit (Z.lor b bits mod 256) n = true.
Proof.
  intros Hn Hbit. change 256 with (2 ^ 8). rewrite Z.mod_pow2_bits_low by lia.
  rewrite Z.lor_spec, Hbit. apply orb_true_r.
Qed.

Lemma discover_tags_length (frame : Buffer) : length (discover_tags frame) = length frame.
Proof. unfold discover_tags, store_or, store. rewrite !length_insert. reflexivity. Qed.

Lemma discover_tags_lookup (frame : Buffer) (i : nat) :
  (22 < length frame)%nat ->
  discover_tags frame !! i =
    if decide (i = 22%nat) then Some (Z.lor (load 22 frame) 0x03 mod 256)
    else if decide (i = 2%nat) then Some (Z.lor (load 2 frame) 0x20 mod 256)
    else frame !! i.
Proof.
  intros Hlen. unfold discover_tags, store_or, store.
  destruct (decide (i = 22%nat)) as [->|H22].
  { rewrite list_lookup_insert_eq by (rewrite length_insert; lia).
    unfold load at 1. rewrite list_lookup_insert_ne by lia. reflexivity. }
  rewrite list_lookup_insert_ne by lia.
  destruct (decide (i = 2%nat)) as [->|H2].
  { rewrite list_lookup_insert_eq by lia. reflexivity. }
  apply list_lookup_insert_ne. lia.
Qed.

(** What the statements of the encoder put into a frame (lines 46-53,
    on joined blocks of at least 36 bytes, for a client with a 4-byte
    nonce): the total length in bytes 0-1, big-endian; 0x14 in byte 2
    (origin 0, addressable 1, high nibble of protocol 1024); the nonce
    in bytes 4-7; the sequence byte at offset 23.  The two statements of
    [discover] (lines 129-130) set the tagged bit 0x20 in byte 2 and the
    two ack/res bits in byte 22, and touch nothing else; the frame
    [send] would pass on has the tagged bit clear. *)
Lemma stamped_layout (client : Client) (message : Buffer) (w : World)
    (frame : Buffer) (w' : World) :
  createMessage_stamp client message w = Returned frame w' ->
  (36 <= length message)%nat ->
  length (nonce client) = 4%nat ->
  let size := Z.of_nat (length frame) in
  let discovery := discover_tags frame in
  length frame = length message /\
  frame !! 0%nat = Some (size / 256) /\
  frame !! 1%nat = Some (size mod 256) /\
  size / 256 < 256 /\
  frame !! 2%nat = Some 0x14 /\
  discovery !! 2%nat = Some (Z.lor 0x14 0x20) /\
  take 4 (drop 4 frame) = nonce client /\
  frame !! 23%nat = Some (nextByte_value w') /\
  Z.testbit (load 2 discovery) 5 = true /\
  Z.testbit (load 22 discovery) 1 = true /\
  Z.testbit (load 22 discovery) 0 = true /\
  Z.testbit (load 2 frame) 5 = false /\
  length discovery = length frame /\
  (forall i : nat, i <> 2%nat -> i <> 22%nat -> discovery !! i = frame !! i).
Proof.
  intros Hstamp Hlen Hnonce size discovery.
  apply stamp_inversion in Hstamp as (_ & Hsize & _ & -> & ->).
  assert (Hl : length (stamped client message w) = length message)
    by (apply stamped_length).
  assert (Hlook := stamped_lookup client message w ltac:(lia)).
  subst size discovery. rewrite Hl.
  assert (H0 : stamped client message w !! 0%nat = Some (Z.of_nat (length message) / 256)).
  { rewrite Hlook; cbn. f_equal. apply size_high. lia. }
  assert (H1 : stamped client message w !! 1%nat = Some (Z.of_nat (length message) mod 256)).
  { rewrite Hlook; cbn. f_equal. apply size_low. lia. }
  assert (H2 : stamped client message w !! 2%nat = Some 0x14) by (rewrite Hlook; reflexivity).
  assert (HD := discover_tags_lookup (stamped client message w)).
  repeat split.
  - exact H0.
  - exact H1.
  - apply Z.div_lt_upper_bound; lia.
  - exact H2.
  - rewrite HD by lia. destruct (decide _); [lia|]. destruct (decide _); [|lia].
    unfold load. rewrite H2. reflexivity.
  - apply list_eq. intros i. rewrite lookup_take, lookup_drop.
    destruct (decide (i < 4)%nat) as [Hi|Hi].
    + rewrite Hlook. destruct (decide _); [lia|]. destruct (decide _); [|lia].
      replace (4 + i - 4)%nat with i by lia. rewrite Hnonce.
      rewrite Nat.mod_small by lia.
      destruct (nonce client !! i) eqn:E; [reflexivity|].
      apply lookup_ge_None in E. lia.
    + symmetry. apply lookup_ge_None. lia.
  - rewrite Hlook. reflexivity.
  - unfold load at 1. rewrite HD by lia. destruct (decide _); [lia|].
    destruct (decide _); [|lia]. unfold load. rewrite H2. reflexivity.
  - unfold load at 1. rewrite HD by lia. destruct (decide _); [|lia].
    apply lor_mod_testbit; [lia|reflexivity].
  - unfold load at 1. rewrite HD by lia. destruct (decide _); [|lia].
    apply lor_mod_testbit; [lia|reflexivity].
  - unfold load. rewrite H2. reflexivity.
  - rewrite discover_tags_length. exact Hl.
  - intros i Hi2 Hi22. rewrite HD by lia.
    destruct (decide _); [lia|]. destruct (decide _); [lia|]. reflexivity.
Qed.

Example stamped_layout_sample :
  exists frame w',
    createMessage_stamp sample_client (blocks []) sample_world = Returned frame w' /\
    frame !! 2%nat = Some 0x14 /\
    discover_tags frame !! 2%nat = Some 0x34 /\
    take 4 (drop 4 frame) = [0xDE; 0xAD; 0xBE; 0xEF].
Proof.
  eexists _, _. split; [vm_compute; reflexivity|].
  pose proof (stamped_layout sample_client (blocks []) sample_world _ _ eq_refl
                ltac:(vm_compute; lia) eq_refl) as H.
  cbv zeta in H. destruct H as (_ & _ & _ & _ & H2 & H3 & H4 & _).
  split; [exact H2|]. split; [exact H3|exact H4].
Qed.


(** ** Encoding in a row *)

Lemma stamp_all_counter (jobs : list (Client * Buffer)) : forall (w : World) frames w',
  stamp_all jobs w = Returned frames w' ->
  0 <= nextByte_value w < 256 ->
  nextByte_value w' = (nextByte_value w + Z.of_nat (length jobs)) mod 256 /\
  length frames = length jobs /\
  (forall (i : nat) frame, frames !! i = Some frame ->
     (23 < length frame)%nat ->
     frame !! 23%nat = Some ((nextByte_value w + Z.of_nat i + 1) mod 256)).
Proof.
  induction jobs as [|[client message] jobs IH]; intros w frames w' Hrun Hv.
  - injection Hrun as <- <-. rewrite Z.add_0_r, Z.mod_small by lia.
    repeat split. intros i frame Hi. destruct i; discriminate.
  - cbn [stamp_all] in Hrun. unfold bind in Hrun.
    destruct (createMessage_stamp client message w) as [frame w1|] eqn:Hstamp; [|discriminate].
    destruct (stamp_all jobs w1) as [frames1 w2|] eqn:Hrest; [|discriminate].
    injection Hrun as <- <-.
    apply stamp_inversion in Hstamp as (Hlen & _ & _ & -> & ->).
    apply IH in Hrest as (Hc & Hl & Hf); [|apply nextByteValue_range].
    cbn [nextByte_value set_nextByte_value] in Hc, Hf.
    unfold nextByteValue in Hc, Hf.
    repeat split.
    + rewrite Hc, Zplus_mod_idemp_l. f_equal. cbn [length]. lia.
    + cbn [length]. lia.
    + intros [|i] frame Hi Hframe.
      * injection Hi as <-. rewrite stamped_length in Hframe.
        rewrite stamped_lookup by lia. cbn. f_equal. unfold nextByteValue. f_equal. lia.
      * cbn in Hi. rewrite (Hf i frame Hi Hframe). f_equal.
        rewrite <- Z.add_assoc, Zplus_mod_idemp_l. f_equal. lia.
Qed.

(** ** What stays the same in every run *)

Lemma evolves_refl ps : evolves ps ps.
Proof. split; auto. Qed.

Lemma evolves_trans ps1 ps2 ps3 : evolves ps1 ps2 -> evolves ps2 ps3 -> evolves ps1 ps3.
Proof. intros [A1 B1] [A2 B2]. split; eauto. Qed.

Lemma evolves_pending ps : evolves ps (ps ++ [Pending]).
Proof.
  split.
  - intros p st H _. apply lookup_app_l_Some. exact H.
  - intros p c H. apply lookup_app_Some in H as [H|[_ H]]; [exact H|].
    destruct (p - length ps)%nat; discriminate.
Qed.

Lemma evolves_settled p st ps :
  (forall c, st <> Fulfilled (Instance c)) -> evolves ps (settled p st ps).
Proof.
  intros Hst. unfold settled.
  destruct (ps !! p) as [[| |]|] eqn:E; try apply evolves_refl.
  split.
  - intros q st' Hq Hne. destruct (decide (q = p)) as [->|Hqp].
    + congruence.
    + rewrite list_lookup_insert_ne by auto. exact Hq.
  - intros q c Hq. destruct (decide (q = p)) as [->|Hqp].
    + rewrite list_lookup_insert_eq in Hq by (eapply lookup_lt_Some; eauto).
      injection Hq as Hq. destruct (Hst _ Hq).
    + rewrite list_lookup_insert_ne in Hq by auto. exact Hq.
Qed.

Lemma stable_refl w : stable w w.
Proof. repeat split; auto. Qed.

Lemma stable_trans w1 w2 w3 : stable w1 w2 -> stable w2 w3 -> stable w1 w3.
Proof.
  intros (A1 & B1 & C1) (A2 & B2 & C2). repeat split; try congruence.
  - destruct C1, C2; eauto.
  - destruct C1, C2; eauto.
Qed.

Lemma rejected_no_instance e c : Rejected e <> Fulfilled (Instance c).
Proof. discriminate. Qed.

Ltac stable_fields := split; [cbn; reflexivity|split; [cbn; reflexivity|cbn]].

Lemma stable_create options w : stable w (world_of (Client_create options w)).
Proof.
  unfold Client_create, new_Promise, bind, Client_createBroadcastSocket, bind.
  destruct (options_socket options); cbn;
    destruct (negb _ || _ || _); stable_fields;
    try apply evolves_pending;
    (eapply evolves_trans; [apply evolves_pending|apply evolves_settled; discriminate]).
Qed.

Lemma stable_discover this timeout port w :
  stable w (world_of (Client_discover this timeout port w)).
Proof.
  unfold Client_discover, new_Promise, bind. stable_fields.
  eapply evolves_trans; [apply evolves_pending|apply evolves_settled; discriminate].
Qed.

Lemma stable_send this timeout payload w :
  stable w (world_of (Client_send this timeout payload w)).
Proof.
  unfold Client_send, new_Promise, bind. stable_fields.
  eapply evolves_trans; [apply evolves_pending|apply evolves_settled; discriminate].
Qed.

Lemma constructor_throws arguments w :
  exists w', Client_constructor arguments w = Thrown freeze_error w' /\
             promises w' = promises w /\ send_calls w' = send_calls w /\
             nextByte_value w' = nextByte_value w /\ uncaught w' = uncaught w /\
             bind_calls w' = bind_calls w.
Proof.
  destruct arguments as [[e|] lg s]; cbn; eexists; (split; [reflexivity|]); cbn; auto.
Qed.

Lemma stable_bound p socket bindError w : stable w (run (bound p socket bindError) w).
Proof.
  destruct bindError as [e|].
  - stable_fields. apply evolves_settled; discriminate.
  - unfold bound, run, bind.
    destruct (constructor_throws (mkArguments None None socket) w)
      as (w' & -> & Hp & Hs & Hn & _).
    split; [|split]; cbn; try assumption. rewrite Hp. apply evolves_refl.
Qed.

Lemma stable_react result sendError r w : stable w (run (react result sendError r) w).
Proof.
  destruct r as [[result' x] timeout]. unfold react.
  destruct (bool_decide _); [destruct sendError|]; stable_fields;
    try apply evolves_refl. apply evolves_settled; discriminate.
Qed.

Lemma stable_consumes s message l w : stable w (run (consumes s message l) w).
Proof.
  unfold consumes. destruct (callback l); try apply stable_refl.
  destruct (_ && _); stable_fields; apply evolves_refl.
Qed.

Lemma stable_foldl {A} (f : World -> A -> World) (l : list A) :
  (forall w a, stable w (f w a)) -> forall w, stable w (foldl f w l).
Proof.
  intros Hf. induction l as [|a l IH]; intros w; cbn; [apply stable_refl|].
  eapply stable_trans; [apply Hf|apply IH].
Qed.

Lemma stable_handle ev w : stable w (handle ev w).
Proof.
  destruct ev as [options|this timeout port|this timeout payload|i bindError|result|i|i|s message];
    cbn [handle].
  - apply stable_create.
  - apply stable_discover.
  - apply stable_send.
  - destruct (bind_calls w !! i) as [[[socket port] p]|]; [apply stable_bound|apply stable_refl].
  - destruct (send_calls w !! result) as [[[socket m] port]|]; [|apply stable_refl].
    eapply stable_trans; [|apply stable_foldl; intros; apply stable_react].
    stable_fields. apply evolves_refl.
  - destruct (timeouts w !! i) as [[x t]|]; [|apply stable_refl].
    stable_fields. apply evolves_refl.
  - destruct (immediates w !! i) as [x|]; [|apply stable_refl].
    stable_fields. apply evolves_settled; discriminate.
  - apply stable_foldl. intros. apply stable_consumes.
Qed.

Lemma stable_handle_all evs : forall w, stable w (handle_all evs w).
Proof. apply stable_foldl. intros. apply stable_handle. Qed.

(** ** What the calls of the client leave *)

Lemma settled_fresh (ps : list PromiseState) (st : PromiseState) :
  settled (length ps) st (ps ++ [Pending]) = ps ++ [st].
Proof.
  unfold settled. rewrite list_lookup_middle by reflexivity.
  rewrite insert_app_r_alt by lia. rewrite Nat.sub_diag. reflexivity.
Qed.

Lemma lookup_fresh (ps : list PromiseState) (st : PromiseState) :
  (ps ++ [st]) !! length ps = Some st.
Proof. apply list_lookup_middle. reflexivity. Qed.

(** What a call of [discover] leaves. *)
Lemma discover_outcome this timeout port w :
  exists w',
    Client_discover this timeout port w = Returned (length (promises w)) w' /\
    promises w' = promises w ++ [Rejected concat_error] /\
    listeners w' = listeners w ++ [consume_listener (socket this) (length (arrays w))] /\
    arrays w' = arrays w ++ [[]] /\
    timeouts w' = timeouts w /\ reactions w' = reactions w /\
    immediates w' = immediates w /\ send_calls w' = send_calls w /\
    bind_calls w' = bind_calls w /\ nextByte_value w' = nextByte_value w.
Proof.
  unfold Client_discover, new_Promise, bind. cbn. eexists. split; [reflexivity|].
  cbn. rewrite settled_fresh. repeat split.
Qed.

Lemma send_outcome this timeout payload w :
  exists w',
    Client_send this timeout payload w = Returned (length (promises w)) w' /\
    promises w' = promises w ++ [Rejected concat_error] /\
    listeners w' = listeners w ++ [consume_listener (socket this) (length (arrays w))] /\
    arrays w' = arrays w ++ [[]] /\
    timeouts w' = timeouts w /\ reactions w' = reactions w /\
    immediates w' = immediates w /\ send_calls w' = send_calls w /\
    bind_calls w' = bind_calls w /\ nextByte_value w' = nextByte_value w.
Proof.
  unfold Client_send, new_Promise, bind. cbn. eexists. split; [reflexivity|].
  cbn. rewrite settled_fresh. repeat split.
Qed.


Lemma create_outcome options w :
  exists p w1 socket,
    Client_create options w = Returned p w1 /\
    match options_socket options with Some s => socket = s | None => socket = sockets w end /\
    p = length (promises w) /\
    if port_rejected (effective_port options)
    then promises w1 = promises w ++ [Rejected port_error] /\ bind_calls w1 = bind_calls w
    else promises w1 = promises w ++ [Pending] /\
         bind_calls w1 = bind_calls w ++ [(socket, effective_port options, p)] /\
         uncaught w1 = uncaught w.
Proof.
  unfold Client_create, new_Promise, bind, Client_createBroadcastSocket, bind,
    effective_port, or_default, port_rejected.
  destruct options as [port [s|]]; cbn;
    destruct (negb _ || _ || _); cbn; eexists _, _, _;
    (split; [reflexivity|]); cbn; rewrite ?settled_fresh; repeat split.
Qed.

(** ** The port check of [Client.create] *)

Lemma port_accepted_iff (v : JsValue) : port_rejected v = false <-> is_port v.
Proof.
  unfold port_rejected, is_port. split.
  - intros H. apply orb_false_iff in H as [H Hgt]. apply orb_false_iff in H as [Hint Hlt].
    apply negb_false_iff in Hint.
    destruct v as [| | |[q| |]| | |]; try discriminate.
    cbn in Hint, Hlt, Hgt. apply negb_false_iff in Hlt, Hgt.
    apply Qeq_bool_iff in Hint. apply Qle_bool_iff in Hlt, Hgt.
    exists q, (Qfloor q). split; [reflexivity|]. split; [symmetry; exact Hint|].
    split.
    + change 0 with (Qfloor (inject_Z 0)). apply Qfloor_resp_le. exact Hlt.
    + change 65535 with (Qfloor (inject_Z 65535)). apply Qfloor_resp_le. exact Hgt.
  - intros (q & z & -> & Hq & Hz). cbn.
    assert (Hfloor : Qfloor q = z) by (rewrite Hq; apply Qfloor_Z).
    rewrite Hfloor.
    assert (Qeq_bool (inject_Z z) q = true) as -> by (apply Qeq_bool_iff; symmetry; exact Hq).
    assert (Qle_bool (inject_Z 0) q = true) as ->.
    { apply Qle_bool_iff. rewrite Hq. rewrite <- Zle_Qle. lia. }
    assert (Qle_bool q (inject_Z 65535) = true) as ->.
    { apply Qle_bool_iff. rewrite Hq. rewrite <- Zle_Qle. lia. }
    reflexivity.
Qed.

Lemma JInt_is_port (z : Z) : 0 <= z <= 65535 -> is_port (JInt z).
Proof. intros H. exists (inject_Z z), z. repeat split; try lia. Qed.

(** ** The sequence counter and the encoder together *)

(** What the counter and the statements of the encoder do together.
    The counter is one value of the process, not of a client; it is 0
    when the module is loaded; [nextByte] advances it by exactly 1 modulo
    256, so [n] calls take [v] to [(v + n) mod 256]; every message the
    statements of the encoder complete, for whichever client, advances it
    once and carries the new value at offset 23; 256 messages after 0 it
    is 0 again. *)
Lemma stamp_all_sequence (jobs : list (Client * Buffer)) (w : World)
    (frames : list Buffer) (w' : World) :
  stamp_all jobs w = Returned frames w' ->
  0 <= nextByte_value w < 256 ->
  Forall (fun job => (36 <= length job.2)%nat) jobs ->
  (forall random transport, nextByte_value (loaded random transport) = 0) /\
  (forall v : World,
     nextByte v = Returned ((nextByte_value v + 1) mod 256)
                           (set_nextByte_value ((nextByte_value v + 1) mod 256) v)) /\
  (forall (n : nat) (v : Z), 0 <= v < 256 ->
     Nat.iter n nextByteValue v = (v + Z.of_nat n) mod 256) /\
  length frames = length jobs /\
  nextByte_value w' = (nextByte_value w + Z.of_nat (length jobs)) mod 256 /\
  (forall (i : nat) frame, frames !! i = Some frame ->
     frame !! 23%nat = Some ((nextByte_value w + Z.of_nat i + 1) mod 256)) /\
  (nextByte_value w = 0 -> length jobs = 256%nat -> nextByte_value w' = 0).
Proof.
  intros Hrun Hv Hjobs.
  assert (Hlen : forall (i : nat) frame, frames !! i = Some frame -> (23 < length frame)%nat).
  { clear Hv. revert w frames w' Hrun.
    induction Hjobs as [|[client message] jobs Hjob _ IH]; intros w frames w' Hrun i frame Hi.
    - injection Hrun as <- <-. destruct i; discriminate.
    - cbn [stamp_all] in Hrun. unfold bind in Hrun.
      destruct (createMessage_stamp client message w) as [f w1|] eqn:Hstamp; [|discriminate].
      destruct (stamp_all jobs w1) as [fs w2|] eqn:Hrest; [|discriminate].
      injection Hrun as <- <-.
      apply stamp_inversion in Hstamp as (_ & _ & _ & -> & _).
      destruct i as [|i].
      + injection Hi as <-. rewrite stamped_length. cbn in Hjob. lia.
      + eapply IH; eauto. }
  destruct (stamp_all_counter jobs w frames w' Hrun Hv) as (Hc & Hl & Hf).
  split; [reflexivity|]. split; [intros v; reflexivity|].
  split; [intros n v; apply nextByteValue_iter|].
  split; [exact Hl|]. split; [exact Hc|]. split.
  - intros i frame Hi. apply Hf; [exact Hi|]. eapply Hlen; eauto.
  - intros H0 H256. rewrite Hc, H0, H256. reflexivity.
Qed.

Example stamp_all_sequence_sample :
  let jobs := replicate 3 (sample_client, blocks []) in
  let w := set_nextByte_value 253 sample_world in
  exists frames w',
    stamp_all jobs w = Returned frames w' /\
    nextByte_value w' = 0 /\
    (forall frame, frames !! 1%nat = Some frame -> frame !! 23%nat = Some 255).
Proof.
  intros jobs w. eexists _, _. split; [vm_compute; reflexivity|].
  pose proof (stamp_all_sequence jobs w _ _ eq_refl
                ltac:(cbn; lia)
                ltac:(apply Forall_replicate; vm_compute; lia)) as H.
  destruct H as (_ & _ & _ & _ & Hc & Hf & _).
  split; [exact Hc|].
  intros frame Hframe. apply (Hf 1%nat frame Hframe).
Qed.

(** ** The two defects *)

Lemma createMessage_throws (client : Client) (payload : JsValue) (w : World) :
  createMessage client payload w = Thrown concat_error w.
Proof. reflexivity. Qed.

Lemma rejected_stays (evs : list Event) (w : World) (p : PromiseId) (e : JsError) :
  promises w !! p = Some (Rejected e) ->
  promises (handle_all evs w) !! p = Some (Rejected e).
Proof.
  intros H. destruct (stable_handle_all evs w) as (_ & _ & Hsettled & _).
  apply Hsettled; [exact H|discriminate].
Qed.

Lemma never_instance (evs : list Event) (w : World) (p : PromiseId) :
  no_instance p (promises w) -> no_instance p (promises (handle_all evs w)).
Proof.
  intros H c Hc. destruct (stable_handle_all evs w) as (_ & _ & _ & Hnew).
  exact (H c (Hnew p c Hc)).
Qed.

(** C9.  [createMessage] gives [Buffer.concat] its four buffers as four
    arguments, not as one array: the first is not an [Array], so the call
    throws a [TypeError] before the size check, whatever the client and
    the payload, and leaves the state as it was.  No frame is produced:
    [discover] and [send] reject with that error without calling the
    transport, and in no run of the program does the list of transport
    calls grow. *)
Theorem createMessage_always_throws (client : Client) (payload : JsValue) (w : World) :
  createMessage client payload w = Thrown concat_error w /\
  error_class concat_error = TypeError /\
  (forall timeout port, exists p w',
     Client_discover client timeout port w = Returned p w' /\
     promises w' !! p = Some (Rejected concat_error) /\
     send_calls w' = send_calls w) /\
  (forall timeout, exists p w',
     Client_send client timeout payload w = Returned p w' /\
     promises w' !! p = Some (Rejected concat_error) /\
     send_calls w' = send_calls w) /\
  (forall evs : list Event, send_calls (handle_all evs w) = send_calls w).
Proof.
  split; [reflexivity|]. split; [reflexivity|]. split; [|split].
  - intros timeout port.
    destruct (discover_outcome client timeout port w)
      as (w' & Hcall & Hp & _ & _ & _ & _ & _ & Hs & _).
    exists (length (promises w)), w'. split; [exact Hcall|]. split; [|exact Hs].
    rewrite Hp. apply lookup_fresh.
  - intros timeout.
    destruct (send_outcome client timeout payload w)
      as (w' & Hcall & Hp & _ & _ & _ & _ & _ & Hs & _).
    exists (length (promises w)), w'. split; [exact Hcall|]. split; [|exact Hs].
    rewrite Hp. apply lookup_fresh.
  - intros evs. destruct (stable_handle_all evs w) as (Hs & _). exact Hs.
Qed.

(** C3.  In the code as it stands no call advances the sequence
    counter: [createMessage] throws at the concatenation, before it
    reaches [nextByte] (line 51), so a call leaves the counter where it
    was and stamps no byte, and in every run from the loaded state the
    counter is still 0.  (What the counter and the stamping statement do
    once reached is [stamp_all_sequence].) *)
Theorem sequence_counter_never_advances (client : Client) (payload : JsValue) (w : World) :
  (exists e, createMessage client payload w = Thrown e w) /\
  nextByte_value (world_of (createMessage client payload w)) = nextByte_value w /\
  (forall (evs : list Event) random transport,
     nextByte_value (handle_all evs (loaded random transport)) = 0).
Proof.
  split; [exists concat_error; reflexivity|]. split; [reflexivity|].
  intros evs random transport.
  destruct (stable_handle_all evs (loaded random transport)) as (_ & Hn & _).
  exact Hn.
Qed.

(** C4.  In the code as it stands neither trigger gets a frame from
    [createMessage]: both throw the [TypeError] of the concatenation,
    and in every run from the loaded state no frame, of whatever layout,
    is handed to the transport.  (What the statements would put into a
    frame is [stamped_layout].) *)
Theorem no_frame_is_built (this : Client) (port payload : JsValue) (w : World) :
  discover_trigger this port w = Thrown concat_error w /\
  send_trigger this payload w = Thrown concat_error w /\
  (forall (evs : list Event) random transport,
     send_calls (handle_all evs (loaded random transport)) = []).
Proof.
  split; [reflexivity|]. split; [reflexivity|].
  intros evs random transport.
  destruct (stable_handle_all evs (loaded random transport)) as (Hs & _).
  exact Hs.
Qed.

Lemma nonceBytes_length (n : nat) : forall w, exists bytes w',
  nonceBytes n w = Returned bytes w' /\ length bytes = n.
Proof.
  induction n as [|n IH]; intros w.
  - exists [], w. split; reflexivity.
  - cbn [nonceBytes]. unfold bind, nonceByte, bind, Math_random, ret.
    destruct (IH (set_random_calls (S (random_calls w)) w)) as (bytes & w' & -> & Hl).
    eexists _, _. split; [reflexivity|]. cbn. rewrite Hl. reflexivity.
Qed.

(** C10.  The constructor applies [Object.freeze] to the buffer it has
    just made from the four nonce bytes; a buffer with elements cannot
    be frozen, so the constructor throws a [TypeError], whatever its
    argument, and the promise of [Client.create] is never fulfilled with
    a client, whatever the environment does afterwards. *)
Theorem constructor_never_completes (arguments : ClientArguments) (w : World) :
  (exists w', Client_constructor arguments w = Thrown freeze_error w') /\
  error_class freeze_error = TypeError /\
  (exists bytes w', nonceBytes 4 w = Returned bytes w' /\
     length (Buffer_from bytes) = 4%nat /\
     Object_freeze (Buffer_from bytes) w' = Thrown freeze_error w') /\
  (forall (options : CreateOptions) (evs : list Event), exists p w1,
     Client_create options w = Returned p w1 /\
     forall c, promises (handle_all evs w1) !! p <> Some (Fulfilled (Instance c))).
Proof.
  split; [|split; [reflexivity|split]].
  - destruct (constructor_throws arguments w) as (w' & H & _). exists w'. exact H.
  - destruct (nonceBytes_length 4 w) as (bytes & w' & Hb & Hl).
    exists bytes, w'. split; [exact Hb|].
    assert (Hlen : length (Buffer_from bytes) = 4%nat).
    { unfold Buffer_from. rewrite length_fmap. exact Hl. }
    split; [exact Hlen|].
    destruct (Buffer_from bytes); [discriminate|reflexivity].
  - intros options evs.
    destruct (create_outcome options w) as (p & w1 & socket & Hcall & _ & -> & Hout).
    exists (length (promises w)), w1. split; [exact Hcall|].
    apply never_instance. intros c.
    destruct (port_rejected _); destruct Hout as (-> & _);
      rewrite lookup_fresh; discriminate.
Qed.

(** ** What the defects do to [create], [discover] and [send] *)

Lemma create_invalid_port_rejected (options : CreateOptions) (w : World) :
  ~ is_port (effective_port options) ->
  exists p w1,
    Client_create options w = Returned p w1 /\
    promises w1 !! p = Some (Rejected port_error) /\
    bind_calls w1 = bind_calls w.
Proof.
  intros Hport.
  destruct (create_outcome options w) as (p & w1 & socket & Hcall & _ & -> & Hout).
  exists (length (promises w)), w1. split; [exact Hcall|].
  destruct (port_rejected (effective_port options)) eqn:E.
  - destruct Hout as (-> & Hb). split; [apply lookup_fresh|exact Hb].
  - apply port_accepted_iff in E. contradiction.
Qed.

(** C7.  For a port that is an integer in [0, 65535], [Client.create]
    validates it, binds the socket and leaves its promise pending; when
    the bind completes, the callback builds the client, the constructor
    throws (see [constructor_throws]) and the promise is not
    resolved: it stays pending, the error is uncaught, and the promise is
    never fulfilled with a client.  (For any other port the promise is
    rejected with the [TypeError] before anything is bound:
    [create_invalid_port_rejected].) *)
Theorem create_valid_port_never_resolves (z : Z) (s : option Socket) (w : World) :
  0 <= z <= 65535 ->
  exists p w1 socket,
    Client_create (mkOptions (JInt z) s) w = Returned p w1 /\
    promises w1 !! p = Some Pending /\
    bind_calls w1 = bind_calls w ++ [(socket, JInt z, p)] /\
    (let w2 := handle (BindDone (length (bind_calls w)) None) w1 in
     promises w2 !! p = Some Pending /\
     uncaught w2 = uncaught w ++ [freeze_error]) /\
    (forall evs c, promises (handle_all evs w1) !! p <> Some (Fulfilled (Instance c))).
Proof.
  intros Hz.
  destruct (create_outcome (mkOptions (JInt z) s) w)
    as (p & w1 & socket & Hcall & _ & -> & Hout).
  assert (Hacc : port_rejected (effective_port (mkOptions (JInt z) s)) = false).
  { apply port_accepted_iff. apply JInt_is_port. exact Hz. }
  rewrite Hacc in Hout. destruct Hout as (Hp & Hb & Hu).
  exists (length (promises w)), w1, socket.
  split; [exact Hcall|]. split; [rewrite Hp; apply lookup_fresh|].
  split; [exact Hb|]. split.
  - cbn [handle]. rewrite Hb, list_lookup_middle by reflexivity.
    unfold bound, run, bind.
    destruct (constructor_throws (mkArguments None None socket) w1)
      as (w2 & -> & Hp2 & _ & _ & Hu2 & _).
    cbn. rewrite Hp2, Hp, Hu2, Hu. split; [apply lookup_fresh|reflexivity].
  - intros evs. apply never_instance. intros c. rewrite Hp, lookup_fresh. discriminate.
Qed.

Lemma create_valid_port_never_resolves_witness :
  exists p w1 socket,
    Client_create (mkOptions (JInt 56700) None) sample_world = Returned p w1 /\
    promises w1 !! p = Some Pending /\
    bind_calls w1 = [(socket, JInt 56700, p)] /\
    promises (handle (BindDone 0 None) w1) !! p = Some Pending /\
    uncaught (handle (BindDone 0 None) w1) = [freeze_error].
Proof.
  destruct (create_valid_port_never_resolves 56700 None sample_world ltac:(lia))
    as (p & w1 & socket & Hcall & Hp & Hb & (Hp2 & Hu) & _).
  exists p, w1, socket. repeat split; assumption.
Defined.

(** C2.  For a payload that makes the frame longer than 65535 bytes,
    [createMessage] throws the [TypeError] of the concatenation, as it
    does for every payload, and not the error of the size check, which
    the statements after the concatenation would throw on the joined
    blocks; [send] rejects with the [TypeError] and the transport is not
    called. *)
Theorem oversized_payload_TypeError (client : Client) (payload : Buffer) (w : World) :
  Z.of_nat (length (blocks payload)) > 65535 ->
  createMessage client (JBuffer payload) w = Thrown concat_error w /\
  error_class concat_error = TypeError /\
  error_class over_limit = Error /\
  createMessage_stamp client (blocks payload) w = Thrown over_limit w /\
  (forall timeout, exists p w',
     Client_send client timeout (JBuffer payload) w = Returned p w' /\
     promises w' !! p = Some (Rejected concat_error) /\
     send_calls w' = send_calls w).
Proof.
  intros Hsize. split; [reflexivity|]. split; [reflexivity|]. split; [reflexivity|].
  split; [apply stamp_over_limit; exact Hsize|].
  intros timeout.
  destruct (send_outcome client timeout (JBuffer payload) w)
    as (w' & Hcall & Hp & _ & _ & _ & _ & _ & Hs & _).
  exists (length (promises w)), w'. split; [exact Hcall|]. split; [|exact Hs].
  rewrite Hp. apply lookup_fresh.
Qed.

Lemma oversized_payload_TypeError_witness :
  createMessage sample_client (JBuffer (replicate (Z.to_nat 65500) 0)) sample_world
    = Thrown concat_error sample_world /\
  createMessage_stamp sample_client (blocks (replicate (Z.to_nat 65500) 0)) sample_world
    = Thrown over_limit sample_world.
Proof.
  destruct (oversized_payload_TypeError sample_client (replicate (Z.to_nat 65500) 0) sample_world)
    as (H1 & _ & _ & H2 & _).
  - unfold blocks, Buffer_alloc. rewrite !length_app, !length_replicate. lia.
  - split; assumption.
Defined.

(** C6.  A call of [discover] or [send] returns a promise that is
    already rejected, with the [TypeError] of the concatenation: no
    timeout is started, no reaction is registered, the transport is not
    called, and the promise stays rejected whatever arrives later; it
    never resolves with the list of datagrams. *)
Theorem exchange_rejected_at_once (this : Client) (timeout port payload : JsValue)
    (w : World) :
  (exists p w',
     Client_discover this timeout port w = Returned p w' /\
     promises w' !! p = Some (Rejected concat_error) /\
     timeouts w' = timeouts w /\ reactions w' = reactions w /\
     immediates w' = immediates w /\ send_calls w' = send_calls w /\
     forall evs, promises (handle_all evs w') !! p = Some (Rejected concat_error)) /\
  (exists p w',
     Client_send this timeout payload w = Returned p w' /\
     promises w' !! p = Some (Rejected concat_error) /\
     timeouts w' = timeouts w /\ reactions w' = reactions w /\
     immediates w' = immediates w /\ send_calls w' = send_calls w /\
     forall evs, promises (handle_all evs w') !! p = Some (Rejected concat_error)).
Proof.
  split.
  - destruct (discover_outcome this timeout port w)
      as (w' & Hcall & Hp & _ & _ & Ht & Hr & Hi & Hs & _).
    assert (Hrej : promises w' !! length (promises w) = Some (Rejected concat_error))
      by (rewrite Hp; apply lookup_fresh).
    exists (length (promises w)), w'. repeat split; try assumption.
    intros evs. apply rejected_stays. exact Hrej.
  - destruct (send_outcome this timeout payload w)
      as (w' & Hcall & Hp & _ & _ & Ht & Hr & Hi & Hs & _).
    assert (Hrej : promises w' !! length (promises w) = Some (Rejected concat_error))
      by (rewrite Hp; apply lookup_fresh).
    exists (length (promises w)), w'. repeat split; try assumption.
    intros evs. apply rejected_stays. exact Hrej.
Qed.

(** What the closures of an exchange do once they are armed: every
    datagram that arrives while the listener is attached is pushed,
    whatever it is; after the transmission the timeout is started; when
    it fires the listener is removed, and the promise is then resolved
    with the array. *)
Example armed_exchange_resolves :
  let w := handle_all [Datagram 0 [1; 2]; SendSettled 0; Datagram 0 [3];
                       TimerFires 0; Datagram 0 [4]; ImmediateRuns 0] armed_world in
  promises w = [Fulfilled (Messages 0)] /\
  arrays w = [[[1; 2]; [3]]] /\
  listeners w = [] /\ timeouts w = [] /\ immediates w = [] /\ uncaught w = [].
Proof. vm_compute. repeat split. Qed.

Lemma consume_pushes (messages : ArrayId) (message : Buffer) (w : World)
    (received : list Buffer) :
  arrays w !! messages = Some received ->
  arrays (world_of (consume messages message w)) !! messages
    = Some (received ++ [message]).
Proof.
  intros H. cbn. rewrite list_lookup_alter_eq, H. reflexivity.
Qed.

(** ** The listener of an exchange *)





(** ** Target and acknowledgement bits *)

(** Options that ask for a target and for both bits get no frame from
    [createMessage], and the statements of the encoder, run on the joined
    blocks, leave the target zero and both bits clear. *)
Lemma encoder_ignores_options :
  ~ encoder_honours sample_client (JBuffer []) wanted_options sample_world /\
  exists frame w',
    createMessage_stamp sample_client (blocks []) sample_world = Returned frame w' /\
    take 8 (drop 8 frame) = replicate 8 0 /\
    load 22 frame = 0 /\
    ~ honours wanted_options frame.
Proof.
  split.
  - intros (frame & w' & Hcall & _). discriminate Hcall.
  - eexists _, _. split; [vm_compute; reflexivity|].
    split; [reflexivity|]. split; [reflexivity|].
    intros (Htarget & _). discriminate Htarget.
Qed.

(** C8, amended.  The encoder takes the client and the payload only.
    Its statements write nothing into bytes 8 to 22 of the message: the
    target (bytes 8-15) and the ack_required and res_required bits
    (byte 22) stay as the joined blocks have them, all zero, which means
    broadcast and no bit set.  Only [discover] sets the two bits, both,
    on the frame it prepares, and it leaves the target as it is. *)
Theorem encoder_leaves_target_and_flags (client : Client) (message : Buffer) (w : World)
    (frame : Buffer) (w' : World) :
  createMessage_stamp client message w = Returned frame w' ->
  (36 <= length message)%nat ->
  (forall i : nat, (8 <= i < 23)%nat -> frame !! i = message !! i) /\
  (forall payload : Buffer, message = blocks payload ->
     take 8 (drop 8 frame) = replicate 8 0 /\ load 22 frame = 0) /\
  Z.testbit (load 22 (discover_tags frame)) 1 = true /\
  Z.testbit (load 22 (discover_tags frame)) 0 = true /\
  take 8 (drop 8 (discover_tags frame)) = take 8 (drop 8 frame).
Proof.
  intros Hstamp Hlen.
  apply stamp_inversion in Hstamp as (_ & _ & _ & -> & _).
  assert (Hlook := stamped_lookup client message w ltac:(lia)).
  assert (Hsame : forall i : nat, (8 <= i < 23)%nat ->
                    stamped client message w !! i = message !! i).
  { intros i Hi. rewrite Hlook. repeat (destruct (decide _); [lia|]). reflexivity. }
  assert (Hlong : (22 < length (stamped client message w))%nat)
    by (rewrite stamped_length; lia).
  pose proof (fun i => discover_tags_lookup (stamped client message w) i Hlong) as HD.
  split; [exact Hsame|]. split; [|split; [|split]].
  - intros payload ->. split.
    + apply list_eq. intros i. rewrite lookup_take, lookup_drop.
      destruct (decide (i < 8)%nat) as [Hi|Hi].
      * rewrite Hsame by lia.
        do 8 (destruct i as [|i]; [reflexivity|]). lia.
      * symmetry. apply lookup_ge_None. rewrite length_replicate. lia.
    + unfold load. rewrite Hsame by lia. reflexivity.
  - unfold load at 1. rewrite HD. destruct (decide _); [|lia].
    apply lor_mod_testbit; [lia|reflexivity].
  - unfold load at 1. rewrite HD. destruct (decide _); [|lia].
    apply lor_mod_testbit; [lia|reflexivity].
  - apply list_eq. intros i. rewrite !lookup_take, !lookup_drop.
    destruct (decide (i < 8)%nat); [|reflexivity].
    rewrite HD. repeat (destruct (decide _); [lia|]). reflexivity.
Qed.

Lemma encoder_leaves_target_and_flags_witness :
  exists frame w',
    createMessage_stamp sample_client (blocks [7; 7]) sample_world = Returned frame w' /\
    take 8 (drop 8 frame) = replicate 8 0 /\
    load 22 frame = 0 /\
    Z.testbit (load 22 (discover_tags frame)) 1 = true.
Proof.
  eexists _, _. split; [vm_compute; reflexivity|].
  destruct (encoder_leaves_target_and_flags sample_client (blocks [7; 7]) sample_world
              _ _ eq_refl ltac:(vm_compute; lia))
    as (_ & Hzero & Hack & _).
  destruct (Hzero [7; 7] eq_refl) as (Ht & Hb).
  split; [exact Ht|]. split; [exact Hb|exact Hack].
Defined.

(** * Further properties of the LAN client *)

(** ** The nonce *)

Lemma random_calls_twice (a b : nat) (w : World) :
  set_random_calls a (set_random_calls b w) = set_random_calls a w.
Proof. reflexivity. Qed.

(** X1.  When [Math.random] keeps its contract (every draw is in
    [0, 1)), [nonceBytes(n)] returns [n] bytes, each in [0, 255] and each
    the floor of 256 times its own draw, taken in order; it takes exactly
    [n] draws; and [Buffer.from] keeps the bytes as they are. *)
Theorem nonceBytes_in_range (n : nat) (w : World) :
  (forall i : nat, (0 <= random w i)%Q /\ (random w i < 1)%Q) ->
  exists bytes : list Z,
    nonceBytes n w = Returned bytes (set_random_calls (random_calls w + n) w) /\
    length bytes = n /\
    Forall (fun b => 0 <= b < 256) bytes /\
    (forall i : nat, (i < n)%nat ->
       bytes !! i = Some (Qfloor (random w (random_calls w + i)%nat * inject_Z 256))) /\
    Buffer_from bytes = bytes.
Proof.
  intros Hdraw. revert w Hdraw. induction n as [|n IH]; intros w Hdraw.
  - exists []. replace (random_calls w + 0)%nat with (random_calls w) by lia.
    split; [destruct w; reflexivity|]. split; [reflexivity|].
    split; [constructor|]. split; [intros i Hi; lia|reflexivity].
  - destruct (IH (set_random_calls (S (random_calls w)) w) Hdraw)
      as (bytes & Hrun & Hlen & Hrange & Hbytes & Hfrom).
    cbn [random random_calls set_random_calls] in Hrun, Hbytes.
    set (byte := Qfloor (random w (random_calls w) * inject_Z 256)).
    assert (Hbyte : 0 <= byte < 256).
    { destruct (Hdraw (random_calls w)) as [H0 H1]. subst byte. split.
      - change 0 with (Qfloor (inject_Z 0)). apply Qfloor_resp_le.
        change (inject_Z 0) with (0 * inject_Z 256)%Q.
        apply Qmult_le_compat_r; [exact H0|discriminate].
      - apply Z.lt_nge. intros Hge.
        assert (Hle : (inject_Z 256 <= random w (random_calls w) * inject_Z 256)%Q).
        { eapply Qle_trans; [|apply Qfloor_le]. rewrite <- Zle_Qle. exact Hge. }
        assert (Hlt : (random w (random_calls w) * inject_Z 256 < 1 * inject_Z 256)%Q).
        { apply Qmult_lt_compat_r; [reflexivity|exact H1]. }
        rewrite Qmult_1_l in Hlt. exact (Qlt_not_le _ _ Hlt Hle). }
    exists (byte :: bytes).
    split.
    { cbn [nonceBytes]. unfold bind at 1. unfold nonceByte, bind, Math_random, ret.
      unfold Math_floor. fold byte. unfold bind. rewrite Hrun.
      rewrite random_calls_twice. do 2 f_equal. lia. }
    split; [cbn; lia|]. split; [constructor; assumption|]. split.
    + intros [|i] Hi.
      * cbn. subst byte. replace (random_calls w + 0)%nat with (random_calls w) by lia.
        reflexivity.
      * cbn. rewrite Hbytes by lia.
        replace (S (random_calls w) + i)%nat with (random_calls w + S i)%nat by lia.
        reflexivity.
    + unfold Buffer_from in *. cbn. rewrite Hfrom, Z.mod_small by exact Hbyte.
      reflexivity.
Qed.

Lemma nonceBytes_in_range_witness :
  exists bytes : list Z,
    nonceBytes 4 sample_world = Returned bytes (set_random_calls 4 sample_world) /\
    length bytes = 4%nat /\ Forall (fun b => 0 <= b < 256) bytes.
Proof.
  destruct (nonceBytes_in_range 4 sample_world) as (bytes & H1 & H2 & H3 & _).
  - intros i. split; [discriminate|reflexivity].
  - exists bytes. repeat split; assumption.
Defined.

(** ** The sequence numbers *)

Lemma nextByte_value_twice (a b : Z) (w : World) :
  set_nextByte_value a (set_nextByte_value b w) = set_nextByte_value a w.
Proof. reflexivity. Qed.

Lemma nextBytes_run (n : nat) : forall w : World,
  0 <= nextByte_value w < 256 ->
  nextBytes n w =
    Returned ((fun i : nat => (nextByte_value w + Z.of_nat i + 1) mod 256) <$> seq 0 n)
             (set_nextByte_value ((nextByte_value w + Z.of_nat n) mod 256) w).
Proof.
  induction n as [|n IH]; intros w Hv.
  - cbn. rewrite Z.add_0_r, Z.mod_small by lia. destruct w; reflexivity.
  - cbn [nextBytes]. unfold bind at 1. rewrite nextByte_spec. unfold bind.
    rewrite IH by (cbn; apply Z.mod_pos_bound; lia).
    cbn [nextByte_value set_nextByte_value]. unfold ret. rewrite nextByte_value_twice.
    f_equal.
    + cbn [seq fmap list_fmap]. f_equal; [f_equal; lia|].
      rewrite <- seq_shift, <- !list_fmap_compose. apply list_fmap_ext.
      intros _ i _. cbn. rewrite <- Z.add_assoc, Zplus_mod_idemp_l. f_equal. lia.
    + f_equal. rewrite Zplus_mod_idemp_l. f_equal. lia.
Qed.

Lemma mod_256_apart (a b : Z) :
  a mod 256 = b mod 256 -> -256 < a - b < 256 -> a = b.
Proof.
  intros Hmod Hnear.
  pose proof (Z.div_mod a 256 ltac:(lia)). pose proof (Z.div_mod b 256 ltac:(lia)).
  lia.
Qed.

(** X2.  From a counter in [0, 255], [n] calls of [nextByte] return
    [v + 1], [v + 2], ..., [v + n] modulo 256 and leave the counter at
    [v + n] modulo 256.  Up to 256 consecutive sequence numbers are
    pairwise different, and after exactly 256 calls the counter is back
    where it started. *)
Theorem sequence_numbers_cycle (n : nat) (w : World) :
  0 <= nextByte_value w < 256 ->
  exists (bytes : list Z) (w' : World),
    nextBytes n w = Returned bytes w' /\
    length bytes = n /\
    (forall i : nat, (i < n)%nat ->
       bytes !! i = Some ((nextByte_value w + Z.of_nat i + 1) mod 256)) /\
    Forall (fun b => 0 <= b < 256) bytes /\
    nextByte_value w' = (nextByte_value w + Z.of_nat n) mod 256 /\
    ((n <= 256)%nat -> NoDup bytes) /\
    (n = 256%nat -> nextByte_value w' = nextByte_value w).
Proof.
  intros Hv. eexists _, _. split; [apply nextBytes_run; exact Hv|].
  assert (Hlook : forall i : nat, (i < n)%nat ->
            ((fun i : nat => (nextByte_value w + Z.of_nat i + 1) mod 256) <$> seq 0 n) !! i
            = Some ((nextByte_value w + Z.of_nat i + 1) mod 256)).
  { intros i Hi. rewrite list_lookup_fmap, lookup_seq_lt by exact Hi. reflexivity. }
  split; [rewrite length_fmap, length_seq; reflexivity|].
  split; [exact Hlook|]. split; [|split; [reflexivity|split]].
  - apply Forall_fmap, Forall_forall. intros i _. cbn. apply Z.mod_pos_bound. lia.
  - intros Hn. apply NoDup_alt. intros i j b Hi Hj.
    assert (Hin : (i < n)%nat) by (apply lookup_lt_Some in Hi;
      rewrite length_fmap, length_seq in Hi; exact Hi).
    assert (Hjn : (j < n)%nat) by (apply lookup_lt_Some in Hj;
      rewrite length_fmap, length_seq in Hj; exact Hj).
    rewrite Hlook in Hi, Hj by assumption. injection Hi as Hi. injection Hj as Hj.
    assert (nextByte_value w + Z.of_nat i + 1 = nextByte_value w + Z.of_nat j + 1)
      by (apply mod_256_apart; [congruence|lia]).
    lia.
  - intros ->. cbn [nextByte_value set_nextByte_value].
    change (Z.of_nat 256) with (1 * 256). rewrite Z.mod_add, Z.mod_small; lia.
Qed.

Lemma sequence_numbers_cycle_witness :
  exists (bytes : list Z) (w' : World),
    nextBytes 256 sample_world = Returned bytes w' /\
    NoDup bytes /\ nextByte_value w' = 0.
Proof.
  destruct (sequence_numbers_cycle 256 sample_world ltac:(cbn; lia))
    as (bytes & w' & Hrun & _ & _ & _ & _ & Hdup & Hback).
  exists bytes, w'. split; [exact Hrun|]. split; [apply Hdup; lia|apply Hback; reflexivity].
Defined.

(** ** The statements of the encoder, as a whole *)

(** X3.  On the joined blocks of a payload that fits (36 bytes of
    header and the payload are at most 65535 bytes), for a client with a
    4-byte nonce, the statements of the encoder return this frame and
    nothing else: the length, big-endian; 0x14 and 0; the nonce; fifteen
    zero bytes; the next sequence number; twelve zero bytes; and the
    payload as it was given.  The counter advances by one. *)
Theorem stamped_frame (client : Client) (payload : Buffer) (w : World) :
  length (nonce client) = 4%nat ->
  36 + Z.of_nat (length payload) <= 65535 ->
  let size := 36 + Z.of_nat (length payload) in
  let sequence := (nextByte_value w + 1) mod 256 in
  createMessage_stamp client (blocks payload) w =
    Returned ([size / 256; size mod 256; 0x14; 0] ++ nonce client ++ replicate 15 0
                ++ [sequence] ++ replicate 12 0 ++ payload)
             (set_nextByte_value sequence w).
Proof.
  intros Hnonce Hsize size sequence.
  assert (Hlen : Z.of_nat (length (blocks payload)) = size).
  { unfold blocks, Buffer_alloc. rewrite !length_app, !length_replicate. lia. }
  rewrite stamp_returns.
  - f_equal. unfold stamped. rewrite Hlen.
    destruct (nonce client) as [|n0 [|n1 [|n2 [|n3 [|]]]]]; try discriminate.
    unfold store. rewrite size_high, size_low by lia.
    rewrite (Z.mod_small (nextByteValue _)) by apply nextByteValue_range.
    reflexivity.
  - unfold blocks, Buffer_alloc. rewrite !length_app, !length_replicate. lia.
  - lia.
  - intros E. rewrite E in Hnonce. discriminate.
Qed.

Lemma stamped_frame_witness :
  createMessage_stamp sample_client (blocks [9; 8; 7]) sample_world =
    Returned [0; 39; 0x14; 0; 0xDE; 0xAD; 0xBE; 0xEF;
              0; 0; 0; 0; 0; 0; 0; 0; 0; 0; 0; 0; 0; 0; 0; 1;
              0; 0; 0; 0; 0; 0; 0; 0; 0; 0; 0; 0; 9; 8; 7]
             (set_nextByte_value 1 sample_world).
Proof.
  exact (stamped_frame sample_client [9; 8; 7] sample_world eq_refl ltac:(cbn; lia)).
Defined.



(** ** [Client.create] and its port *)

(** X5.  [Client.create] accepts exactly the ports that are integers in
    [0, 65535], 56700 standing in for a port that is not given: for such
    a port it asks the socket to bind to it and returns a pending
    promise; for every other value it asks for no bind and returns a
    promise rejected with the [TypeError].  The socket is made before
    the port is looked at: when none is given, one broadcast socket is
    created, with its one-time ['listening'] listener, whether the port
    is accepted or not. *)
Theorem create_checks_port (options : CreateOptions) (w : World) :
  exists (p : PromiseId) (w1 : World) (socket : Socket),
    Client_create options w = Returned p w1 /\
    (is_port (effective_port options) ->
       promises w1 !! p = Some Pending /\
       bind_calls w1 = bind_calls w ++ [(socket, effective_port options, p)]) /\
    (~ is_port (effective_port options) ->
       promises w1 !! p = Some (Rejected port_error) /\
       bind_calls w1 = bind_calls w) /\
    match options_socket options with
    | Some s => socket = s /\ sockets w1 = sockets w /\ listeners w1 = listeners w
    | None =>
        socket = sockets w /\ sockets w1 = S (sockets w) /\
        listeners w1 = listeners w ++ [mkListener (OnSocket socket) "listening"
                                                  (SetBroadcast socket) true]
    end.
Proof.
  destruct (create_outcome options w) as (p & w1 & socket & Hcall & Hsocket & -> & Hout).
  exists (length (promises w)), w1, socket. split; [exact Hcall|].
  split; [|split].
  - intros Hport. apply port_accepted_iff in Hport. rewrite Hport in Hout.
    destruct Hout as (-> & Hb & _). split; [apply lookup_fresh|exact Hb].
  - intros Hport. destruct (port_rejected (effective_port options)) eqn:E.
    + destruct Hout as (-> & Hb). split; [apply lookup_fresh|exact Hb].
    + apply port_accepted_iff in E. contradiction.
  - clear Hout. revert Hcall Hsocket.
    unfold Client_create, new_Promise, bind, Client_createBroadcastSocket, bind.
    destruct options as [port [s|]]; cbn;
      destruct (negb _ || _ || _); cbn; intros [= <-] ->; repeat split.
Qed.

(** ** Listeners that stay *)

Lemma attached_length (first : ArrayId) (calls : list Client) :
  length (attached first calls) = length calls.
Proof. revert first. induction calls as [|this calls IH]; intros first; cbn; auto. Qed.

(** X6.  Every call of [discover] or [send] attaches one ['message']
    listener to the socket of its client and takes none away: after a
    row of such calls the listeners are those there were, followed by
    one per call, in call order, each over a new array; as many arrays
    and as many promises were added, and each of these promises is
    rejected. *)
Theorem exchange_calls_leave_listeners (evs : list Event) (calls : list Client) (w : World) :
  exchange_call <$> evs = Some <$> calls ->
  let w' := handle_all evs w in
  listeners w' = listeners w ++ attached (length (arrays w)) calls /\
  arrays w' = arrays w ++ replicate (length calls) [] /\
  promises w' = promises w ++ replicate (length calls) (Rejected concat_error).
Proof.
  revert calls w. induction evs as [|ev evs IH]; intros calls w Hcalls.
  - destruct calls; [|discriminate]. cbn. rewrite !app_nil_r. auto.
  - destruct calls as [|this calls]; [discriminate|].
    cbn in Hcalls. injection Hcalls as Hev Hrest.
    cbn [handle_all foldl]. fold (handle_all evs (handle ev w)).
    assert (Hstep : listeners (handle ev w)
                      = listeners w ++ [consume_listener (socket this) (length (arrays w))] /\
                    arrays (handle ev w) = arrays w ++ [[]] /\
                    promises (handle ev w) = promises w ++ [Rejected concat_error]).
    { destruct ev as [| this' timeout port | this' timeout payload | | | | |];
        try discriminate; injection Hev as ->; cbn [handle].
      - destruct (discover_outcome this timeout port w)
          as (w1 & -> & Hp & Hl & Ha & _). cbn. auto.
      - destruct (send_outcome this timeout payload w)
          as (w1 & -> & Hp & Hl & Ha & _). cbn. auto. }
    destruct Hstep as (Hl & Ha & Hp).
    destruct (IH calls (handle ev w) Hrest) as (IHl & IHa & IHp).
    cbv zeta. rewrite IHl, IHa, IHp, Hl, Ha, Hp, length_app. cbn [length attached replicate].
    rewrite <- !app_assoc. replace (length (arrays w) + 1)%nat with (S (length (arrays w))) by lia.
    auto.
Qed.

Lemma exchange_calls_leave_listeners_witness :
  let w := handle_all [CallDiscover sample_client JUndefined JUndefined;
                       CallSend sample_client (JInt 200) (JBuffer [1])] sample_world in
  listeners w = [consume_listener 0 0; consume_listener 0 1] /\
  promises w = [Rejected concat_error; Rejected concat_error].
Proof.
  destruct (exchange_calls_leave_listeners
              [CallDiscover sample_client JUndefined JUndefined;
               CallSend sample_client (JInt 200) (JBuffer [1])]
              [sample_client; sample_client] sample_world eq_refl) as (Hl & _ & Hp).
  split; [exact Hl|exact Hp].
Defined.

(** X11.  When the bind reports an error to the callback of
    [Client.create], the promise is rejected with that very error and
    stays so; no client is constructed for it: no listener is added, no
    random byte is drawn and nothing is left uncaught. *)
Theorem bind_failure_rejects (options : CreateOptions) (w : World) (e : JsError) :
  is_port (effective_port options) ->
  exists (p : PromiseId) (w1 : World),
    Client_create options w = Returned p w1 /\
    let w2 := handle (BindDone (length (bind_calls w)) (Some e)) w1 in
    promises w2 !! p = Some (Rejected e) /\
    listeners w2 = listeners w1 /\
    random_calls w2 = random_calls w1 /\
    uncaught w2 = uncaught w /\
    forall evs, promises (handle_all evs w2) !! p = Some (Rejected e).
Proof.
  intros Hport.
  destruct (create_outcome options w) as (p & w1 & socket & Hcall & _ & -> & Hout).
  apply port_accepted_iff in Hport. rewrite Hport in Hout.
  destruct Hout as (Hp & Hb & Hu).
  exists (length (promises w)), w1. split; [exact Hcall|].
  cbn zeta. cbn [handle]. rewrite Hb, list_lookup_middle by reflexivity.
  unfold bound, run, reject, modify, settle. cbn.
  assert (Hrej : settled (length (promises w)) (Rejected e) (promises w1)
                   !! length (promises w) = Some (Rejected e)).
  { unfold settled. rewrite Hp, lookup_fresh, <- Hp.
    apply list_lookup_insert_eq. rewrite Hp, length_app. cbn. lia. }
  repeat split; try assumption.
  intros evs. apply rejected_stays. cbn. exact Hrej.
Qed.

Lemma bind_failure_rejects_witness :
  exists (p : PromiseId) (w1 : World),
    Client_create (mkOptions JUndefined None) sample_world = Returned p w1 /\
    promises (handle (BindDone 0 (Some (mkError Error "bind EADDRINUSE"))) w1) !! p
      = Some (Rejected (mkError Error "bind EADDRINUSE")).
Proof.
  destruct (bind_failure_rejects (mkOptions JUndefined None) sample_world
              (mkError Error "bind EADDRINUSE") (JInt_is_port 56700 ltac:(lia)))
    as (p & w1 & Hcall & Hp & _).
  exists p, w1. split; [exact Hcall|exact Hp].
Defined.

(** ** The listening window is never entered *)







(** ** What the closures of an exchange do together *)

Lemma consume_all (messages : ArrayId) (datagrams : list Buffer) : forall (w : World)
    (received : list Buffer),
  arrays w !! messages = Some received ->
  let w' := foldl (fun w d => run (consume messages d) w) w datagrams in
  arrays w' !! messages = Some (received ++ datagrams) /\
  promises w' = promises w /\ listeners w' = listeners w /\
  immediates w' = immediates w /\ timeouts w' = timeouts w.
Proof.
  induction datagrams as [|d ds IH]; intros w received Hm; cbn [foldl].
  - cbv zeta. rewrite app_nil_r. auto.
  - assert (Hstep : arrays (run (consume messages d) w) !! messages = Some (received ++ [d])).
    { cbn. rewrite list_lookup_alter_eq, Hm. reflexivity. }
    destruct (IH _ _ Hstep) as (Ha & Hp & Hl & Hi & Ht).
    cbv zeta. rewrite Ha, Hp, Hl, Hi, Ht, <- app_assoc. auto.
Qed.

Lemma remove_first_absent t name listener (ls : list Listener) :
  Forall (fun l => registers t name listener l = false) ls ->
  remove_first t name listener ls = ls.
Proof.
  induction 1 as [|l ls Hl _ IH]; [reflexivity|]. cbn. rewrite Hl, IH. reflexivity.
Qed.

Lemma remove_first_found t name listener (ls ls' : list Listener) (l : Listener) :
  Forall (fun l => registers t name listener l = false) ls ->
  registers t name listener l = true ->
  remove_first t name listener (ls ++ l :: ls') = ls ++ ls'.
Proof.
  intros Hls Hl. induction Hls as [|l0 ls Hl0 _ IH]; cbn.
  - rewrite Hl. reflexivity.
  - rewrite Hl0, IH. reflexivity.
Qed.

(** X8.  The closures of one exchange, run as the code arms them:
    [consume] for each datagram, then [cleanup], then the [resolve] that
    [cleanup] left with [setImmediate].  The promise, pending until then,
    is fulfilled with the array [messages], which holds what it held
    before followed by every datagram, in order of arrival and none left
    out; the latest registration of the exchange's listener is taken off
    the socket and every other listener stays where it was. *)
Theorem exchange_closures_deliver (x : Exchange) (datagrams received : list Buffer)
    (before after : list Listener) (w : World) :
  arrays w !! exchange_messages x = Some received ->
  promises w !! exchange_promise x = Some Pending ->
  listeners w
    = before ++ consume_listener (exchange_socket x) (exchange_messages x) :: after ->
  Forall (fun l => callback l <> Consume (exchange_messages x)) after ->
  let w1 := foldl (fun w d => run (consume (exchange_messages x) d) w) w datagrams in
  let w2 := run (cleanup x) w1 in
  let w3 := handle (ImmediateRuns (length (immediates w))) w2 in
  promises w2 !! exchange_promise x = Some Pending /\
  immediates w2 = immediates w ++ [x] /\
  promises w3 !! exchange_promise x = Some (Fulfilled (Messages (exchange_messages x))) /\
  arrays w3 !! exchange_messages x = Some (received ++ datagrams) /\
  listeners w3 = before ++ after /\
  immediates w3 = immediates w.
Proof.
  intros Harr Hpending Hls Hafter w1 w2 w3.
  destruct (consume_all (exchange_messages x) datagrams w received Harr)
    as (Ha & Hp & Hl & Hi & Ht). fold w1 in Ha, Hp, Hl, Hi, Ht.
  set (own := consume_listener (exchange_socket x) (exchange_messages x)) in *.
  assert (Hown : registers (OnSocket (exchange_socket x)) "message"
                   (Consume (exchange_messages x)) own = true).
  { unfold registers, own, consume_listener. cbn. rewrite !bool_decide_eq_true_2; reflexivity. }
  assert (Hothers : Forall (fun l => registers (OnSocket (exchange_socket x)) "message"
                              (Consume (exchange_messages x)) l = false) (rev after)).
  { apply Forall_forall. intros l Hin.
    apply list_elem_of_In, in_rev, list_elem_of_In in Hin.
    rewrite Forall_forall in Hafter. specialize (Hafter l Hin).
    unfold registers. rewrite (bool_decide_eq_false_2 (callback l = _)) by exact Hafter.
    apply andb_false_r. }
  assert (Hl2 : listeners w2 = before ++ after).
  { subst w2. cbn. rewrite Hl, Hls, rev_app_distr. cbn [rev]. rewrite <- app_assoc. cbn [app].
    rewrite remove_first_found by assumption.
    rewrite rev_app_distr, !rev_involutive. reflexivity. }
  assert (Hp2 : promises w2 = promises w) by (subst w2; cbn; exact Hp).
  assert (Hi2 : immediates w2 = immediates w ++ [x]) by (subst w2; cbn; rewrite Hi; reflexivity).
  assert (Ha2 : arrays w2 = arrays w1) by reflexivity.
  split; [rewrite Hp2; exact Hpending|]. split; [exact Hi2|].
  subst w3. clearbody w2 w1. cbn [handle]. rewrite Hi2, list_lookup_middle by reflexivity. cbn.
  rewrite Hp2, Ha2, Hl2. unfold settled. rewrite Hpending.
  split; [apply list_lookup_insert_eq; eapply lookup_lt_Some; exact Hpending|].
  split; [exact Ha|]. split; [reflexivity|].
  rewrite delete_middle. apply app_nil_r.
Qed.

Lemma exchange_closures_deliver_witness :
  let x := mkExchange 0 0 0 in
  let w1 := foldl (fun w d => run (consume 0 d) w) armed_world [[1; 2]; [3]] in
  let w3 := handle (ImmediateRuns 0) (run (cleanup x) w1) in
  promises w3 !! 0%nat = Some (Fulfilled (Messages 0)) /\
  arrays w3 !! 0%nat = Some [[1; 2]; [3]] /\
  listeners w3 = [].
Proof.
  destruct (exchange_closures_deliver (mkExchange 0 0 0) [[1; 2]; [3]] [] [] [] armed_world
              eq_refl eq_refl eq_refl ltac:(constructor))
    as (_ & _ & Hp & Ha & Hl & _).
  repeat split; assumption.
Defined.

(** * Properties of [delta] *)

Section DeltaFacts.

Import HTTPv1.

Example delta_sample :
  delta (VObject 1 [("power", VString "on"); ("brightness", VNumber (Finite 1));
                    ("color", VObject 2 [("hue", VNumber (Finite 120))])])
        (VObject 3 [("power", VString "off"); ("brightness", VNumber (Finite 1));
                    ("color", VObject 4 [("hue", VNumber (Finite 120))]);
                    ("label", VString "desk")])
  = Differences [("power", Tuple (VString "on") (VString "off"));
                 ("label", Tuple VNull (VString "desk"))].
Proof. reflexivity. Qed.

Lemma eqb_false_ne (a b : string) : a <> b -> String.eqb a b = false.
Proof. intros H. apply String.eqb_neq. exact H. Qed.

Lemma property_assign {A} (key k : string) (v : A) (rest : list (string * A)) :
  key <> "__proto__" ->
  property key (assign k v rest) = if String.eqb key k then Some v else property key rest.
Proof.
  intros Hkey. unfold assign. destruct (String.eqb k "__proto__") eqn:E; [|reflexivity].
  apply String.eqb_eq in E. subst k. rewrite eqb_false_ne by exact Hkey. reflexivity.
Qed.

Lemma property_app {A} (key : string) (l1 l2 : list (string * A)) :
  property key (l1 ++ l2) =
    match property key l1 with Some v => Some v | None => property key l2 end.
Proof.
  induction l1 as [|[k v] l1 IH]; [reflexivity|]. cbn.
  destruct (String.eqb key k); [reflexivity|exact IH].
Qed.

Lemma has_keys {A} (key : string) (properties : list (string * A)) :
  has key (properties.*1) = match property key properties with Some _ => true | None => false end.
Proof.
  induction properties as [|[k v] ps IH]; [reflexivity|]. cbn.
  destruct (String.eqb key k); [reflexivity|exact IH].
Qed.

Lemma has_cons (key k : string) (seen : list string) :
  has key (k :: seen) = String.eqb key k || has key seen.
Proof. reflexivity. Qed.

Lemma property_left_entries compare rps (key : string) (lps : list (string * Value)) :
  key <> "__proto__" ->
  forall seen,
    property key (left_entries compare rps seen lps) =
      if has key seen then None
      else match property key lps with
           | Some lv => left_entry compare rps lv key
           | None => None
           end.
Proof.
  intros Hkey. induction lps as [|[k lv] lps IH]; intros seen.
  - cbn. destruct (has key seen); reflexivity.
  - cbn [left_entries property].
    destruct (has k seen) eqn:Hk.
    + rewrite IH. destruct (has key seen) eqn:Hs; [reflexivity|].
      destruct (String.eqb key k) eqn:E; [|reflexivity].
      apply String.eqb_eq in E. subst k. congruence.
    + assert (Htail : property key (left_entries compare rps (k :: seen) lps) =
                if String.eqb key k then None
                else if has key seen then None
                else match property key lps with
                     | Some lv => left_entry compare rps lv key
                     | None => None
                     end).
      { rewrite IH, has_cons. destruct (String.eqb key k); reflexivity. }
      destruct (String.eqb key k) eqn:E.
      * apply String.eqb_eq in E. subst k. rewrite Hk. unfold left_entry.
        destruct (property key rps) as [rv|].
        -- destruct (compare lv rv) eqn:Hc; try exact Htail;
             rewrite property_assign, String.eqb_refl by exact Hkey; reflexivity.
        -- rewrite property_assign, String.eqb_refl by exact Hkey. reflexivity.
      * destruct (property k rps) as [rv|].
        -- destruct (compare lv rv); try exact Htail;
             rewrite property_assign, E by exact Hkey; exact Htail.
        -- rewrite property_assign, E by exact Hkey. exact Htail.
Qed.

Lemma property_right_entries (key : string) (rps : list (string * Value)) :
  key <> "__proto__" ->
  forall seen,
    property key (right_entries seen rps) =
      if has key seen then None
      else match property key rps with
           | Some rv => Some (Tuple VNull rv)
           | None => None
           end.
Proof.
  intros Hkey. induction rps as [|[k rv] rps IH]; intros seen.
  - cbn. destruct (has key seen); reflexivity.
  - cbn [right_entries property].
    destruct (has k seen) eqn:Hk.
    + rewrite IH. destruct (has key seen) eqn:Hs; [reflexivity|].
      destruct (String.eqb key k) eqn:E; [|reflexivity].
      apply String.eqb_eq in E. subst k. congruence.
    + rewrite property_assign by exact Hkey.
      destruct (String.eqb key k) eqn:E.
      * apply String.eqb_eq in E. subst k. rewrite Hk. reflexivity.
      * rewrite IH, has_cons, E. reflexivity.
Qed.

Lemma no_proto_left compare rps (lps : list (string * Value)) : forall seen,
  property "__proto__" (left_entries compare rps seen lps) = None.
Proof.
  induction lps as [|[k lv] lps IH]; intros seen; [reflexivity|].
  cbn [left_entries]. destruct (has k seen); [apply IH|].
  assert (Hassign : forall v, property "__proto__"
            (assign k v (left_entries compare rps (k :: seen) lps)) = None).
  { intros v. unfold assign. destruct (String.eqb k "__proto__") eqn:E; [apply IH|].
    cbn [property]. rewrite String.eqb_sym, E. apply IH. }
  destruct (property k rps) as [rv|]; [|apply Hassign].
  destruct (compare lv rv); [apply IH|apply Hassign|apply Hassign].
Qed.

Lemma no_proto_right (rps : list (string * Value)) : forall seen,
  property "__proto__" (right_entries seen rps) = None.
Proof.
  induction rps as [|[k rv] rps IH]; intros seen; [reflexivity|].
  cbn [right_entries]. destruct (has k seen); [apply IH|].
  unfold assign. destruct (String.eqb k "__proto__") eqn:E; [apply IH|].
  cbn [property]. rewrite String.eqb_sym, E. apply IH.
Qed.

Lemma delta_objects (i j : nat) (lps rps : list (string * Value)) :
  Nat.eqb i j = false ->
  delta (VObject i lps) (VObject j rps) =
    match left_entries delta rps [] lps ++ right_entries (lps.*1) rps with
    | [] => NoDifference
    | e :: es => Differences (e :: es)
    end.
Proof.
  intros H. cbn. rewrite H.
  destruct (left_entries delta rps [] lps ++ right_entries (lps.*1) rps); reflexivity.
Qed.

Lemma entry_delta_objects (i j : nat) (lps rps : list (string * Value)) (key : string) :
  Nat.eqb i j = false ->
  entry key (delta (VObject i lps) (VObject j rps)) =
    property key (left_entries delta rps [] lps ++ right_entries (lps.*1) rps).
Proof.
  intros H. rewrite delta_objects by exact H.
  destruct (left_entries delta rps [] lps ++ right_entries (lps.*1) rps); reflexivity.
Qed.

Lemma entry_of_objects (i j : nat) (lps rps : list (string * Value)) (key : string) :
  Nat.eqb i j = false -> key <> "__proto__" ->
  entry key (delta (VObject i lps) (VObject j rps)) =
    match property key lps, property key rps with
    | Some lv, Some rv =>
        match delta lv rv with
        | NoDifference => None
        | value => Some value
        end
    | Some lv, None => Some (Tuple lv VNull)
    | None, Some rv => Some (Tuple VNull rv)
    | None, None => None
    end.
Proof.
  intros Hij Hkey. rewrite entry_delta_objects, property_app by exact Hij.
  rewrite property_left_entries, property_right_entries by exact Hkey.
  rewrite has_keys. cbn [has existsb]. unfold left_entry.
  destruct (property key lps) as [lv|]; [|reflexivity].
  destruct (property key rps) as [rv|]; [|reflexivity].
  destruct (delta lv rv); reflexivity.
Qed.

(** X9.  For two objects that are not one and the same, [delta] returns
    [null] or an object whose entry under a key is: the difference of the
    two values when both objects have the key and their values differ;
    [[value, null]] when only the left one has it; [[null, value]] when
    only the right one has it; and nothing when neither has it or when
    the two values do not differ.  Under ["__proto__"] there is never an
    entry, whatever the two objects hold there. *)
Theorem delta_entries (i j : nat) (lps rps : list (string * Value)) (key : string) :
  Nat.eqb i j = false ->
  let d := delta (VObject i lps) (VObject j rps) in
  (key <> "__proto__" ->
   entry key d =
     match property key lps, property key rps with
     | Some lv, Some rv =>
         match delta lv rv with
         | NoDifference => None
         | value => Some value
         end
     | Some lv, None => Some (Tuple lv VNull)
     | None, Some rv => Some (Tuple VNull rv)
     | None, None => None
     end) /\
  entry "__proto__" d = None /\
  d <> Differences [].
Proof.
  intros Hij d. subst d. split; [|split].
  - intros Hkey. apply entry_of_objects; assumption.
  - rewrite entry_delta_objects, property_app by exact Hij.
    rewrite no_proto_left. apply no_proto_right.
  - rewrite delta_objects by exact Hij.
    destruct (left_entries delta rps [] lps ++ right_entries (lps.*1) rps); discriminate.
Qed.

Lemma delta_entries_witness :
  entry "a" (delta (VObject 1 [("a", VNumber (Finite 1)); ("__proto__", VNull)])
                   (VObject 2 [("b", VNull); ("__proto__", VString "x")]))
    = Some (Tuple (VNumber (Finite 1)) VNull).
Proof.
  destruct (delta_entries 1 2 [("a", VNumber (Finite 1)); ("__proto__", VNull)]
              [("b", VNull); ("__proto__", VString "x")] "a" eq_refl) as (H & _).
  exact (H ltac:(discriminate)).
Defined.

Lemma Value_nested_ind (P : Value -> Prop) :
  P VUndefined -> P VNull -> (forall b, P (VBoolean b)) -> (forall n, P (VNumber n)) ->
  (forall s, P (VString s)) ->
  (forall i properties, Forall (fun kv => P kv.2) properties -> P (VObject i properties)) ->
  forall v, P v.
Proof.
  intros Hu Hn Hb Hnum Hs Ho.
  fix IH 1.
  intros [| | b | n | s | i properties];
    [exact Hu|exact Hn|apply Hb|apply Hnum|apply Hs|].
  apply Ho. induction properties as [|[k v] ps IHps]; constructor; [apply IH|exact IHps].
Qed.

Lemma property_elem {A} (key : string) (properties : list (string * A)) (v : A) :
  property key properties = Some v -> (key, v) ∈ properties.
Proof.
  induction properties as [|[k x] ps IH]; [discriminate|]. cbn.
  destruct (String.eqb key k) eqn:E.
  - apply String.eqb_eq in E. intros [= ->]. subst k. left.
  - intros H. right. exact (IH H).
Qed.

Lemma no_property_nil {A} (entries : list (string * A)) :
  (forall key, property key entries = None) -> entries = [].
Proof.
  destruct entries as [|[k v] es]; [reflexivity|]. intros H. specialize (H k).
  cbn in H. rewrite String.eqb_refl in H. discriminate.
Qed.

Lemma number_equal_sym (a b : JsNumber) : number_equal a b = number_equal b a.
Proof.
  destruct a as [p| |s], b as [q| |t]; try reflexivity; cbn.
  - destruct (Qeq_bool p q) eqn:E.
    + symmetry. apply Qeq_bool_iff. symmetry. apply Qeq_bool_iff. exact E.
    + destruct (Qeq_bool q p) eqn:E'; [|reflexivity].
      apply Qeq_bool_iff in E'. symmetry in E'. apply Qeq_bool_iff in E'. congruence.
  - destruct s, t; reflexivity.
Qed.

Lemma strict_equal_sym (l r : Value) : strict_equal l r = strict_equal r l.
Proof.
  destruct l, r; try reflexivity; cbn.
  - destruct b, b0; reflexivity.
  - apply number_equal_sym.
  - apply String.eqb_sym.
  - apply Nat.eqb_sym.
Qed.

Lemma strict_equal_refl (v : Value) : strict_equal v v = true <-> v <> VNumber NaN.
Proof.
  destruct v as [| | b | n | s | i ps]; cbn.
  - split; [discriminate|reflexivity].
  - split; [discriminate|reflexivity].
  - split; [discriminate|destruct b; reflexivity].
  - destruct n as [q| |s]; cbn.
    + split; [discriminate|]. intros _. apply Qeq_bool_iff. reflexivity.
    + split; [discriminate|]. intros H. destruct (H eq_refl).
    + split; [discriminate|]. intros _. destruct s; reflexivity.
  - split; [discriminate|]. intros _. apply String.eqb_refl.
  - split; [discriminate|]. intros _. apply Nat.eqb_refl.
Qed.

Lemma alike_sym (l r : Value) : alike l r -> alike r l.
Proof.
  induction 1 as [l r H | i j lps rps Hkeys Hvalues IH].
  - apply alike_equal. rewrite strict_equal_sym. exact H.
  - apply alike_objects.
    + intros key Hkey. symmetry. apply Hkeys. exact Hkey.
    + intros key rv lv Hkey Hr Hl. exact (IH key lv rv Hkey Hl Hr).
Qed.

Lemma delta_unfold (l r : Value) :
  delta l r =
    if strict_equal l r then NoDifference
    else match l, r with
         | VObject _ lps, VObject _ rps =>
             match left_entries delta rps [] lps ++ right_entries (lps.*1) rps with
             | [] => NoDifference
             | e :: es => Differences (e :: es)
             end
         | _, _ => Tuple l r
         end.
Proof.
  destruct l; try reflexivity. destruct r; try reflexivity.
  change (delta (VObject identity properties) (VObject identity0 properties0))
    with (if strict_equal (VObject identity properties) (VObject identity0 properties0)
          then NoDifference
          else match left_entries delta properties0 [] properties
                     ++ right_entries (properties.*1) properties0 with
               | [] => NoDifference
               | _ :: _ => Differences (left_entries delta properties0 [] properties
                                          ++ right_entries (properties.*1) properties0)
               end).
  destruct (strict_equal _ _); [reflexivity|].
  destruct (left_entries delta properties0 [] properties
              ++ right_entries (properties.*1) properties0); reflexivity.
Qed.

Lemma delta_primitive (l r : Value) :
  (forall i ps, l <> VObject i ps) \/ (forall j ps, r <> VObject j ps) ->
  delta l r = if strict_equal l r then NoDifference else Tuple l r.
Proof.
  intros H. rewrite delta_unfold. destruct (strict_equal l r); [reflexivity|].
  destruct l; try reflexivity. destruct r; try reflexivity.
  destruct H as [H|H]; exfalso; exact (H _ _ eq_refl).
Qed.

Lemma alike_of_no_difference (l : Value) : forall r, delta l r = NoDifference -> alike l r.
Proof.
  induction l as [| | b | n | s | i lps IH] using Value_nested_ind; intros r Hd;
    try (rewrite delta_primitive in Hd by (left; discriminate);
         destruct (strict_equal _ r) eqn:E; [apply alike_equal; exact E|discriminate]).
  destruct r as [| | b | n | s | j rps];
    try (rewrite delta_primitive in Hd by (right; discriminate);
         cbn in Hd; discriminate).
  destruct (Nat.eqb i j) eqn:Hij; [apply alike_equal; exact Hij|].
  assert (Hentry : forall key, key <> "__proto__" ->
            entry key (delta (VObject i lps) (VObject j rps)) = None)
    by (intros key _; rewrite Hd; reflexivity).
  apply alike_objects.
  - intros key Hkey. specialize (Hentry key Hkey).
    rewrite entry_of_objects in Hentry by assumption.
    destruct (property key lps) as [lv|], (property key rps) as [rv|];
      split; intros; congruence.
  - intros key lv rv Hkey Hl Hr. specialize (Hentry key Hkey).
    rewrite entry_of_objects, Hl, Hr in Hentry by assumption.
    rewrite Forall_forall in IH. apply (IH (key, lv) (property_elem _ _ _ Hl)).
    cbn. destruct (delta lv rv); [reflexivity|discriminate|discriminate].
Qed.

Lemma no_difference_of_alike (l r : Value) : alike l r -> delta l r = NoDifference.
Proof.
  induction 1 as [l r H | i j lps rps Hkeys Hvalues IH].
  - rewrite delta_unfold, H. reflexivity.
  - destruct (Nat.eqb i j) eqn:Hij; [rewrite delta_unfold; cbn; rewrite Hij; reflexivity|].
    rewrite delta_objects by exact Hij.
    assert (Hnil : left_entries delta rps [] lps ++ right_entries (lps.*1) rps = []).
    { apply no_property_nil. intros key.
      destruct (String.eqb key "__proto__") eqn:E.
      - apply String.eqb_eq in E. subst key. rewrite property_app, no_proto_left.
        apply no_proto_right.
      - apply String.eqb_neq in E.
        rewrite <- (entry_delta_objects i j) by exact Hij.
        rewrite entry_of_objects by assumption.
        specialize (Hkeys key E). specialize (IH key).
        destruct (property key lps) as [lv|], (property key rps) as [rv|].
        + rewrite (IH lv rv E eq_refl eq_refl). reflexivity.
        + destruct Hkeys as [_ Hk]. specialize (Hk eq_refl). discriminate.
        + destruct Hkeys as [Hk _]. specialize (Hk eq_refl). discriminate.
        + reflexivity. }
    rewrite Hnil. reflexivity.
Qed.

(** X10.  [delta] returns [null] exactly for two values that are alike:
    strictly equal, or two objects that have the same keys and, under
    each key, values that are alike in turn, the key ["__proto__"] not
    counting.  Which of the two comes first does not matter for that.  A
    value compared with itself gives [null], except [NaN], which gives
    [[NaN, NaN]]. *)
Theorem delta_null_iff_alike (left right : Value) :
  (delta left right = NoDifference <-> alike left right) /\
  (delta right left = NoDifference <-> delta left right = NoDifference) /\
  (delta left left = NoDifference <-> left <> VNumber NaN) /\
  delta (VNumber NaN) (VNumber NaN) = Tuple (VNumber NaN) (VNumber NaN).
Proof.
  assert (Hiff : forall l r, delta l r = NoDifference <-> alike l r)
    by (intros l r; split; [apply alike_of_no_difference|apply no_difference_of_alike]).
  split; [apply Hiff|]. split; [|split; [|reflexivity]].
  - rewrite !Hiff. split; apply alike_sym.
  - split.
    + intros Hd ->. discriminate Hd.
    + intros Hne. apply strict_equal_refl in Hne.
      rewrite delta_unfold, Hne. reflexivity.
Qed.

Lemma property_mirror (key : string) (entries : list (string * Difference)) :
  property key (map (fun kd => (kd.1, mirror kd.2)) entries)
    = mirror <$> property key entries.
Proof.
  induction entries as [|[k d] es IH]; [reflexivity|]. cbn.
  destruct (String.eqb key k); [reflexivity|exact IH].
Qed.

Lemma delta_sym_null (l r : Value) :
  delta r l = NoDifference <-> delta l r = NoDifference.
Proof.
  split; intros H; apply no_difference_of_alike, alike_sym, alike_of_no_difference, H.
Qed.

Lemma entry_none_of_null (d : Difference) (key : string) :
  d = NoDifference -> entry key d = None.
Proof. intros ->. reflexivity. Qed.

Lemma entry_proto (i j : nat) (lps rps : list (string * Value)) :
  Nat.eqb i j = false ->
  entry "__proto__" (delta (VObject i lps) (VObject j rps)) = None.
Proof.
  intros Hij. rewrite entry_delta_objects, property_app by exact Hij.
  rewrite no_proto_left. apply no_proto_right.
Qed.

(** X12.  Comparing the other way round gives the same difference seen
    from the other side: [delta(right, left)] says, key by key, what
    [delta(left, right)] says with every tuple turned round. *)
Theorem delta_mirrored (left right : Value) :
  agree (delta right left) (mirror (delta left right)).
Proof.
  revert right. rename left into l.
  induction l as [| | b | n | s | i lps IH] using Value_nested_ind; intros r;
    try (rewrite (delta_primitive r) by (right; discriminate);
         rewrite (delta_primitive _ r) by (left; discriminate);
         rewrite (strict_equal_sym r);
         destruct (strict_equal _ r); constructor).
  destruct r as [| | b | n | s | j rps];
    try (rewrite (delta_primitive _ (VObject i lps)) by (left; discriminate);
         rewrite (delta_primitive (VObject i lps)) by (right; discriminate);
         cbn; constructor).
  destruct (Nat.eqb i j) eqn:Hij.
  { rewrite !delta_unfold. cbn [strict_equal]. rewrite (Nat.eqb_sym j i), Hij. constructor. }
  assert (Hji : Nat.eqb j i = false) by (rewrite Nat.eqb_sym; exact Hij).
  pose proof (entry_of_objects i j lps rps) as Hl.
  pose proof (entry_of_objects j i rps lps) as Hr.
  pose proof (entry_proto i j lps rps Hij) as Hlp.
  pose proof (entry_proto j i rps lps Hji) as Hrp.
  pose proof (delta_sym_null (VObject i lps) (VObject j rps)) as Hnull.
  assert (Hnot_l : delta (VObject i lps) (VObject j rps) <> Tuple (VObject i lps) (VObject j rps)
                   /\ forall a b, delta (VObject i lps) (VObject j rps) <> Tuple a b).
  { rewrite delta_objects by exact Hij. destruct (_ ++ _); split; try discriminate;
      intros; discriminate. }
  assert (Hnot_r : forall a b, delta (VObject j rps) (VObject i lps) <> Tuple a b).
  { rewrite delta_objects by exact Hji. destruct (_ ++ _); intros; discriminate. }
  destruct (delta (VObject i lps) (VObject j rps)) as [|a b|es] eqn:Dl.
  - destruct Hnull as [_ Hn]. rewrite (Hn eq_refl). constructor.
  - destruct Hnot_l as [_ H]. destruct (H a b eq_refl).
  - destruct (delta (VObject j rps) (VObject i lps)) as [|a b|es'] eqn:Dr.
    + destruct Hnull as [Hn _]. specialize (Hn eq_refl). discriminate.
    + destruct (Hnot_r a b eq_refl).
    + cbn [mirror entry] in *.
      assert (Hkey : forall key,
                match property key es', mirror <$> property key es with
                | Some d', Some d => agree d' d
                | None, None => True
                | _, _ => False
                end).
      { intros key. destruct (String.eqb key "__proto__") eqn:E.
        - apply String.eqb_eq in E. subst key. rewrite Hlp, Hrp. exact I.
        - apply String.eqb_neq in E. rewrite (Hl key Hij E), (Hr key Hji E).
          destruct (property key lps) as [lv|] eqn:El, (property key rps) as [rv|] eqn:Er;
            cbn; try constructor.
          rewrite Forall_forall in IH.
          pose proof (IH (key, lv) (property_elem _ _ _ El) rv) as Hagree. cbn in Hagree.
          pose proof (delta_sym_null lv rv) as Hn.
          destruct (delta lv rv) eqn:D1; destruct (delta rv lv) eqn:D2; cbn;
            try exact I; try exact Hagree;
            try (destruct Hn as [Hn _]; specialize (Hn eq_refl); discriminate);
            try (destruct Hn as [_ Hn]; specialize (Hn eq_refl); discriminate). }
      apply agree_entries.
      * intros key. specialize (Hkey key). rewrite property_mirror.
        destruct (property key es'), (property key es); cbn in *;
          split; intros; try congruence; try contradiction.
      * intros key d' d Hd' Hd. specialize (Hkey key). rewrite property_mirror in Hd.
        rewrite Hd', Hd in Hkey. exact Hkey.
Qed.


End DeltaFacts.
